(** * geminiService: a shallow embedding of [src/services/geminiService.ts]

    The module is an adapter around a remote generative-AI client.  Its
    behaviour is: build the client lazily ([getAiInstance]), perform one
    remote call per operation, unwrap the response, and send every caught
    failure through the error classifier ([handleError]).

    Modelling conventions.
    - A JavaScript string is its sequence of UTF-16 code units ([jsstring]).
    - [JSON.parse] is the platform's parser; it is embedded here as a
      recursive-descent parser for the JSON grammar of ECMA-262/ECMA-404.
      Numbers are kept as their lexemes: no operation of the module looks at
      a numeric value.
    - An operation is a state transformer over a [World]: the module-level
      [aiInstance], the configuration variable [API_KEY] and the log of the
      remote calls issued so far.  [await] is sequencing.
    - Fields the source reads without a guard ([response.text],
      [part.inlineData.data], [img.image.imageBytes], ...) are present in
      the model; fields it guards ([part.text], [part.inlineData],
      [response.generatedImages]) are optional.
    - The remote service and the messages of the engine's own errors are
      parameters ([Host]).  Reading a [File] succeeds.  [console.error]
      only logs and is left out. *)

From Stdlib Require Import String Ascii.
From Stdlib Require Import List NArith ZArith Bool Arith Lia.
Import ListNotations.

Set Warnings "-register-all".

Local Open Scope N_scope.
Local Open Scope list_scope.

(* ===================================================================== *)
(** ** Strings *)
(* ===================================================================== *)

Module JsString.

(** UTF-16 code units. *)
Definition jsstring := list N.

(** A source literal made of ASCII characters only: each character is its
    own code unit. *)
Definition lit (s : string) : jsstring :=
  map N_of_ascii (list_ascii_of_string s).

(** Same, with every apostrophe standing for a double quote (code unit 34);
    used to write JSON texts. *)
Definition jq (s : string) : jsstring :=
  map (fun c => if c =? 39 then 34 else c) (lit s).

(** [s.startsWith(p)] *)
Fixpoint startsWith (s p : jsstring) {struct p} : bool :=
  match p, s with
  | [], _ => true
  | _ :: _, [] => false
  | c :: p', d :: s' => (c =? d) && startsWith s' p'
  end.

(** [s.includes(sub)] *)
Fixpoint includes (s sub : jsstring) : bool :=
  startsWith s sub ||
  match s with
  | [] => false
  | _ :: s' => includes s' sub
  end.

(** WhiteSpace and LineTerminator code points, the ones [trim] strips. *)
Definition isTrimSpace (c : N) : bool :=
  existsb (N.eqb c)
    [9; 10; 11; 12; 13; 32; 160; 5760; 8232; 8233; 8239; 8287; 12288; 65279]
  || ((8192 <=? c) && (c <=? 8202)).

Fixpoint trimStart (s : jsstring) : jsstring :=
  match s with
  | c :: s' => if isTrimSpace c then trimStart s' else s
  | [] => []
  end.

Definition trimEnd (s : jsstring) : jsstring := rev (trimStart (rev s)).

(** [s.trim()] *)
Definition trim (s : jsstring) : jsstring := trimEnd (trimStart s).

(** [sub] occurs in [s] as a contiguous run of code units. *)
Definition infix (sub s : jsstring) : Prop :=
  exists pre post, s = pre ++ sub ++ post.

End JsString.
Export JsString.

(* ===================================================================== *)
(** ** JSON values and [JSON.parse] *)
(* ===================================================================== *)

Module Json.

Inductive json : Type :=
| JNull
| JBool (b : bool)
| JNumber (lexeme : jsstring)
| JString (s : jsstring)
| JArray (elements : list json)
| JObject (members : list (jsstring * json)).

Inductive parse_result (A : Type) : Type :=
| Parsed (a : A) (rest : jsstring)
| SyntaxError
| OutOfFuel.
Arguments Parsed {A} a rest.
Arguments SyntaxError {A}.
Arguments OutOfFuel {A}.

(** JSON whitespace: tab, line feed, carriage return, space. *)
Definition isJsonSpace (c : N) : bool :=
  (c =? 9) || (c =? 10) || (c =? 13) || (c =? 32).

Fixpoint skip_ws (s : jsstring) : jsstring :=
  match s with
  | c :: s' => if isJsonSpace c then skip_ws s' else s
  | [] => []
  end.

Definition isDigit (c : N) : bool := (48 <=? c) && (c <=? 57).

Definition hexval (c : N) : option N :=
  if isDigit c then Some (c - 48)
  else if (97 <=? c) && (c <=? 102) then Some (c - 87)
  else if (65 <=? c) && (c <=? 70) then Some (c - 55)
  else None.

Definition hex4 (a b c d : N) : option N :=
  match hexval a, hexval b, hexval c, hexval d with
  | Some x, Some y, Some z, Some w => Some (((x * 16 + y) * 16 + z) * 16 + w)
  | _, _, _, _ => None
  end.

(** The code unit an escape letter stands for: quote, backslash, slash,
    and the letters b, f, n, r, t. *)
Definition escape (e : N) : option N :=
  if e =? 34 then Some 34
  else if e =? 92 then Some 92
  else if e =? 47 then Some 47
  else if e =? 98 then Some 8
  else if e =? 102 then Some 12
  else if e =? 110 then Some 10
  else if e =? 114 then Some 13
  else if e =? 116 then Some 9
  else None.

Definition cons_char (c : N) (r : option (jsstring * jsstring))
  : option (jsstring * jsstring) :=
  match r with
  | Some (str, rest) => Some (c :: str, rest)
  | None => None
  end.

(** The characters of a string literal, after its opening quote, up to and
    including the closing quote. *)
Fixpoint parse_chars (s : jsstring) : option (jsstring * jsstring) :=
  match s with
  | [] => None
  | c :: s' =>
      if c =? 34 then Some ([], s')
      else if c =? 92 then
        match s' with
        | [] => None
        | e :: s'' =>
            match escape e with
            | Some u => cons_char u (parse_chars s'')
            | None =>
                if e =? 117 then
                  match s'' with
                  | h1 :: h2 :: h3 :: h4 :: s5 =>
                      match hex4 h1 h2 h3 h4 with
                      | Some u => cons_char u (parse_chars s5)
                      | None => None
                      end
                  | _ => None
                  end
                else None
            end
        end
      else if c <? 32 then None
      else cons_char c (parse_chars s')
  end.

(** The longest run of decimal digits at the head of [s]. *)
Fixpoint span_digits (s : jsstring) : jsstring * jsstring :=
  match s with
  | c :: s' =>
      if isDigit c
      then let (ds, rest) := span_digits s' in (c :: ds, rest)
      else ([], s)
  | [] => ([], [])
  end.

(** Optional fraction: [.] and at least one digit. *)
Definition parse_frac (s : jsstring) : option (jsstring * jsstring) :=
  match s with
  | c :: s' =>
      if c =? 46 then
        match span_digits s' with
        | ([], _) => None
        | (ds, rest) => Some (c :: ds, rest)
        end
      else Some ([], s)
  | [] => Some ([], [])
  end.

(** Optional exponent: [e] or [E], an optional sign, at least one digit. *)
Definition parse_exp (s : jsstring) : option (jsstring * jsstring) :=
  match s with
  | c :: s' =>
      if (c =? 101) || (c =? 69) then
        let (sign, s1) :=
          match s' with
          | d :: s'' => if (d =? 43) || (d =? 45) then ([d], s'') else ([], s')
          | [] => ([], s')
          end in
        match span_digits s1 with
        | ([], _) => None
        | (ds, rest) => Some (c :: sign ++ ds, rest)
        end
      else Some ([], s)
  | [] => Some ([], [])
  end.

(** Integer part: [0], or a non-zero digit followed by digits. *)
Definition parse_int (s : jsstring) : option (jsstring * jsstring) :=
  match s with
  | c :: s' =>
      if c =? 48 then Some ([c], s')
      else if isDigit c
      then let (ds, rest) := span_digits s' in Some (c :: ds, rest)
      else None
  | [] => None
  end.

Definition parse_number (s : jsstring) : option (jsstring * jsstring) :=
  let (sign, s0) :=
    match s with
    | c :: s' => if c =? 45 then ([c], s') else ([], s)
    | [] => ([], s)
    end in
  match parse_int s0 with
  | None => None
  | Some (i, s1) =>
      match parse_frac s1 with
      | None => None
      | Some (f, s2) =>
          match parse_exp s2 with
          | None => None
          | Some (e, s3) => Some (sign ++ i ++ f ++ e, s3)
          end
      end
  end.

(** [strip p s] removes the literal [p] from the head of [s]. *)
Fixpoint strip (p s : jsstring) : option jsstring :=
  match p, s with
  | [], _ => Some s
  | _ :: _, [] => None
  | c :: p', d :: s' => if c =? d then strip p' s' else None
  end.

(** The grammar's three mutually recursive productions.  [parse_value]
    expects its input to start at the value (whitespace already skipped);
    [parse_elements] reads [value (, value)* ]] and [parse_members] reads
    [string : value (, string : value)* }]. *)
Fixpoint parse_value (fuel : nat) (s : jsstring) : parse_result json :=
  match fuel with
  | O => OutOfFuel
  | S fuel' =>
      match s with
      | [] => SyntaxError
      | c :: s' =>
          if c =? 123 then
            match skip_ws s' with
            | [] => SyntaxError
            | d :: s1 =>
                if d =? 125 then Parsed (JObject []) s1
                else
                  match parse_members fuel' (d :: s1) with
                  | Parsed ms rest => Parsed (JObject ms) rest
                  | SyntaxError => SyntaxError
                  | OutOfFuel => OutOfFuel
                  end
            end
          else if c =? 91 then
            match skip_ws s' with
            | [] => SyntaxError
            | d :: s1 =>
                if d =? 93 then Parsed (JArray []) s1
                else
                  match parse_elements fuel' (d :: s1) with
                  | Parsed vs rest => Parsed (JArray vs) rest
                  | SyntaxError => SyntaxError
                  | OutOfFuel => OutOfFuel
                  end
            end
          else if c =? 34 then
            match parse_chars s' with
            | Some (str, rest) => Parsed (JString str) rest
            | None => SyntaxError
            end
          else if c =? 116 then
            match strip (lit "true") s with
            | Some rest => Parsed (JBool true) rest
            | None => SyntaxError
            end
          else if c =? 102 then
            match strip (lit "false") s with
            | Some rest => Parsed (JBool false) rest
            | None => SyntaxError
            end
          else if c =? 110 then
            match strip (lit "null") s with
            | Some rest => Parsed JNull rest
            | None => SyntaxError
            end
          else
            match parse_number s with
            | Some (lexeme, rest) => Parsed (JNumber lexeme) rest
            | None => SyntaxError
            end
      end
  end

with parse_elements (fuel : nat) (s : jsstring) : parse_result (list json) :=
  match fuel with
  | O => OutOfFuel
  | S fuel' =>
      match parse_value fuel' s with
      | Parsed v rest =>
          match skip_ws rest with
          | [] => SyntaxError
          | c :: rest' =>
              if c =? 44 then
                match parse_elements fuel' (skip_ws rest') with
                | Parsed vs r => Parsed (v :: vs) r
                | SyntaxError => SyntaxError
                | OutOfFuel => OutOfFuel
                end
              else if c =? 93 then Parsed [v] rest'
              else SyntaxError
          end
      | SyntaxError => SyntaxError
      | OutOfFuel => OutOfFuel
      end
  end

with parse_members (fuel : nat) (s : jsstring)
  : parse_result (list (jsstring * json)) :=
  match fuel with
  | O => OutOfFuel
  | S fuel' =>
      match s with
      | [] => SyntaxError
      | q :: s' =>
          if q =? 34 then
            match parse_chars s' with
            | None => SyntaxError
            | Some (key, s1) =>
                match skip_ws s1 with
                | [] => SyntaxError
                | colon :: s2 =>
                    if colon =? 58 then
                      match parse_value fuel' (skip_ws s2) with
                      | Parsed v rest =>
                          match skip_ws rest with
                          | [] => SyntaxError
                          | c :: rest' =>
                              if c =? 44 then
                                match parse_members fuel' (skip_ws rest') with
                                | Parsed ms r => Parsed ((key, v) :: ms) r
                                | SyntaxError => SyntaxError
                                | OutOfFuel => OutOfFuel
                                end
                              else if c =? 125 then Parsed [(key, v)] rest'
                              else SyntaxError
                          end
                      | SyntaxError => SyntaxError
                      | OutOfFuel => OutOfFuel
                      end
                    else SyntaxError
                end
            end
          else SyntaxError
      end
  end.

(** Fuel that is always enough (lemma [parse_value_fuel]). *)
Definition fuel_for (s : jsstring) : nat := S (2 * List.length s).

(** [JSON.parse(text)]: [None] is the thrown [SyntaxError]. *)
Definition JSON_parse (text : jsstring) : option json :=
  match parse_value (fuel_for text) (skip_ws text) with
  | Parsed v rest =>
      match skip_ws rest with
      | [] => Some v
      | _ :: _ => None
      end
  | SyntaxError => None
  | OutOfFuel => None
  end.

End Json.
Export Json.

(* ===================================================================== *)
(** ** Notions used to state facts about the parser *)
(* ===================================================================== *)

Module ParserNotions.

(** [rest] is what is left of [s] after reading a prefix of it. *)
Definition tail_of (rest s : jsstring) : Prop := exists pre, s = pre ++ rest.

(** ... a non-empty prefix. *)
Definition shorter_tail (rest s : jsstring) : Prop :=
  tail_of rest s /\ (List.length rest < List.length s)%nat.

(** [occurs str v]: the string [str] is a string value somewhere inside
    [v] (an element at any depth, or the value of a member). *)
Inductive occurs (str : jsstring) : json -> Prop :=
| occurs_here : occurs str (JString str)
| occurs_element vs v : In v vs -> occurs str v -> occurs str (JArray vs)
| occurs_member ms k v : In (k, v) ms -> occurs str v -> occurs str (JObject ms).

(** A text without a backslash: none of its string literals has an
    escape sequence. *)
Definition plain (s : jsstring) : Prop := ~ In 92 s.

End ParserNotions.
Export ParserNotions.

(* ===================================================================== *)
(** ** JavaScript values: property access, errors, completions *)
(* ===================================================================== *)

Module Js.

Fixpoint str_eqb (a b : jsstring) : bool :=
  match a, b with
  | [], [] => true
  | c :: a', d :: b' => (c =? d) && str_eqb a' b'
  | _, _ => false
  end.

(** The own property [key] of an object built by [JSON.parse]: when a key
    is written twice the later member wins. *)
Fixpoint lookup (key : jsstring) (members : list (jsstring * json))
  : option json :=
  match members with
  | [] => None
  | (k, v) :: members' =>
      match lookup key members' with
      | Some v' => Some v'
      | None => if str_eqb k key then Some v else None
      end
  end.

(** [o.key] for [o] other than [null] and [undefined]; [None] is
    [undefined].  The module only asks for [error], [details], [reason] and
    [palette], which booleans, numbers, strings and arrays do not have and
    which objects do not inherit. *)
Definition get (o : json) (key : jsstring) : option json :=
  match o with
  | JObject members => lookup key members
  | _ => None
  end.

(** [o?.key], where [o] may be [undefined] ([None]) or [null]. *)
Definition opt_get (o : option json) (key : jsstring) : option json :=
  match o with
  | None => None
  | Some JNull => None
  | Some v => get v key
  end.

(** An [Error] object: its [message], and its [name] standing for the rest
    of the object ([Error], [TypeError], [SyntaxError], ...). *)
Record JsError : Type := { name : jsstring; message : jsstring }.

(** [new Error(msg)] *)
Definition new_Error (msg : jsstring) : JsError :=
  {| name := lit "Error"; message := msg |}.

(** A thrown value: [error instanceof Error] holds of [ErrorObject] only. *)
Inductive thrown : Type :=
| ErrorObject (e : JsError)
| NonError (v : json).

Inductive completion (A : Type) : Type :=
| Return (a : A)
| Throw (t : thrown).
Arguments Return {A} a.
Arguments Throw {A} t.

(** [!s] for a string that may be [undefined]. *)
Definition falsy (s : option jsstring) : bool :=
  match s with
  | None => true
  | Some [] => true
  | Some (_ :: _) => false
  end.

End Js.
Export Js.

(* ===================================================================== *)
(** ** The error classifier *)
(* ===================================================================== *)

Module Classifier.

(** The literal thrown by [getAiInstance] and by [handleError]. *)
Definition CONFIG_MESSAGE : jsstring :=
  lit "Error de Configuraci" ++ [243] ++
  lit "n: La API Key para el servicio de IA no ha sido configurada. El administrador del sitio debe a" ++ [241] ++
  lit "adirla en los ajustes de despliegue para que la aplicaci" ++ [243] ++
  lit "n funcione.".

Definition CONFIG_PREFIX : jsstring :=
  lit "Error de Configuraci" ++ [243] ++ lit "n".

Definition API_KEY_INVALID : jsstring := lit "API_KEY_INVALID".

(** [d.reason === 'API_KEY_INVALID'], for [d] other than [null]. *)
Definition reason_is_invalid_key (d : json) : bool :=
  match get d (lit "reason") with
  | Some (JString s) => str_eqb s API_KEY_INVALID
  | _ => false
  end.

(** [details.some((d) => d.reason === 'API_KEY_INVALID')].  [None]: the
    callback threw a [TypeError], which reading [reason] off a [null] entry
    does. *)
Fixpoint some_reason (details : list json) : option bool :=
  match details with
  | [] => Some false
  | JNull :: _ => None
  | d :: details' =>
      if reason_is_invalid_key d then Some true else some_reason details'
  end.

(** The [try] block of [handleError] and its empty [catch]: the value
    [isApiKeyError] holds afterwards. *)
Definition probe (msg : jsstring) : bool :=
  match JSON_parse msg with
  | None => false
  | Some parsedError =>
      let details :=
        opt_get (opt_get (Some parsedError) (lit "error")) (lit "details") in
      match details with
      | Some (JArray ds) =>
          match some_reason ds with
          | Some b => b
          | None => false
          end
      | _ => false
      end
  end.

Definition genericMessage (context original : jsstring) : jsstring :=
  lit "Failed to " ++ context ++ lit ". " ++ original.

Definition unknownMessage (context : jsstring) : jsstring :=
  lit "An unknown error occurred while trying to " ++ context ++ lit ".".

(** [handleError(error, context)].  The call to [console.error] only logs
    and is left out. *)
Definition handleError (error : thrown) (context : jsstring)
  : completion unit :=
  match error with
  | ErrorObject e =>
      if startsWith (message e) CONFIG_PREFIX then Throw error
      else
        let isApiKeyError :=
          if includes (message e) (lit "API key not valid")
             || includes (message e) API_KEY_INVALID
          then true
          else probe (message e) in
        if isApiKeyError
        then Throw (ErrorObject (new_Error CONFIG_MESSAGE))
        else Throw (ErrorObject (new_Error (genericMessage context (message e))))
  | NonError _ =>
      Throw (ErrorObject (new_Error (unknownMessage context)))
  end.

(** [handleError] with the [else] branch holding the JSON probe removed. *)
Definition handleError_without_probe (error : thrown) (context : jsstring)
  : completion unit :=
  match error with
  | ErrorObject e =>
      if startsWith (message e) CONFIG_PREFIX then Throw error
      else
        let isApiKeyError :=
          if includes (message e) (lit "API key not valid")
             || includes (message e) API_KEY_INVALID
          then true
          else false in
        if isApiKeyError
        then Throw (ErrorObject (new_Error CONFIG_MESSAGE))
        else Throw (ErrorObject (new_Error (genericMessage context (message e))))
  | NonError _ =>
      Throw (ErrorObject (new_Error (unknownMessage context)))
  end.

(** The spec's reading of the structured check: the message parses as a
    JSON envelope whose [error.details] array contains an entry with
    [reason] equal to the sentinel. *)
Definition envelope_reports_invalid_key (msg : jsstring) : bool :=
  match JSON_parse msg with
  | Some (JObject top) =>
      match lookup (lit "error") top with
      | Some (JObject err) =>
          match lookup (lit "details") err with
          | Some (JArray ds) =>
              existsb
                (fun d =>
                   match d with
                   | JObject entry =>
                       match lookup (lit "reason") entry with
                       | Some (JString s) => str_eqb s API_KEY_INVALID
                       | _ => false
                       end
                   | _ => false
                   end) ds
          | _ => false
          end
      | _ => false
      end
  | _ => false
  end.

(** The normalized errors, as the module tells them apart. *)
Definition ConfigurationError : thrown :=
  ErrorObject (new_Error CONFIG_MESSAGE).

Definition GenericFailure (context original : jsstring) : thrown :=
  ErrorObject (new_Error (genericMessage context original)).

Definition UnknownFailure (context : jsstring) : thrown :=
  ErrorObject (new_Error (unknownMessage context)).

End Classifier.
Export Classifier.


(* ===================================================================== *)
(** ** The client library, as the module uses it *)
(* ===================================================================== *)

Module Sdk.

(** [new GoogleGenAI({ apiKey })] *)
Record GoogleGenAI : Type := { apiKey : jsstring }.

Inductive Modality : Type := IMAGE | TEXT.

(** The [Type] enumeration of schema descriptors. *)
Inductive SchemaType : Type := OBJECT | ARRAY | STRING.

Inductive Schema : Type :=
| MkSchema (type : SchemaType) (description : option jsstring)
    (properties : list (jsstring * Schema)) (items : option Schema)
    (required : list jsstring).

Record InlineData : Type := { data : jsstring; mimeType : jsstring }.

(** A part of a request or of a response: both fields are optional. *)
Record Part : Type := {
  text : option jsstring;
  inlineData : option InlineData
}.

Record GenerateImagesParameters : Type := {
  images_model : jsstring;
  images_prompt : jsstring;
  numberOfImages : Z;
  outputMimeType : jsstring;
  aspectRatio : jsstring
}.

Record GenerateContentConfig : Type := {
  responseMimeType : option jsstring;
  responseSchema : option Schema;
  responseModalities : option (list Modality)
}.

Inductive Contents : Type :=
| PromptContents (prompt : jsstring)
| PartsContents (parts : list Part).

Record GenerateContentParameters : Type := {
  model : jsstring;
  contents : Contents;
  config : option GenerateContentConfig
}.

(** [img.image.imageBytes] of one generated image. *)
Record GeneratedImage : Type := { imageBytes : jsstring }.

Record GenerateImagesResponse : Type := {
  generatedImages : option (list GeneratedImage)
}.

(** What the module reads off a content response: [response.text] and
    [response.candidates[0].content.parts]. *)
Record GenerateContentResponse : Type := {
  response_text : jsstring;
  response_parts : list Part
}.

(** A remote call, as recorded in the log. *)
Inductive RemoteCall : Type :=
| GenerateImages (ai : GoogleGenAI) (params : GenerateImagesParameters)
| GenerateContent (ai : GoogleGenAI) (params : GenerateContentParameters).

(** What the module runs on: the remote service behind
    [ai.models.generateImages] and [ai.models.generateContent] (a promise
    fulfils, [Return], or rejects, [Throw]), and the messages the engine
    gives to the errors it raises itself. *)
Record Host : Type := {
  generateImages :
    GoogleGenAI -> GenerateImagesParameters -> completion GenerateImagesResponse;
  generateContent :
    GoogleGenAI -> GenerateContentParameters -> completion GenerateContentResponse;
  (** message of the [SyntaxError] of [JSON.parse(text)] *)
  syntaxErrorMessage : jsstring -> jsstring;
  (** message of the [TypeError] of reading a property off [null]
      ([Some JNull]) or [undefined] ([None]) *)
  typeErrorMessage : option json -> jsstring -> jsstring
}.

(** A [File], as [fileToGenerativePart] sees it: its [type] and the second
    comma-separated field of the data URL that [FileReader.readAsDataURL]
    produces for it, which is its base64 payload. *)
Record File : Type := { file_type : jsstring; file_base64 : jsstring }.

End Sdk.
Export Sdk.

(* ===================================================================== *)
(** ** State and effects *)
(* ===================================================================== *)

Module Effects.

(** The state an operation runs in: the module variable [aiInstance], the
    configuration variable [process.env.API_KEY], and the remote calls
    issued so far, latest first. *)
Record World : Type := {
  aiInstance : option GoogleGenAI;
  API_KEY : option jsstring;
  calls : list RemoteCall
}.

Definition M (A : Type) : Type := World -> completion A * World.

Definition ret {A} (a : A) : M A := fun w => (Return a, w).

Definition throw {A} (t : thrown) : M A := fun w => (Throw t, w).

Definition bind {A B} (m : M A) (k : A -> M B) : M B :=
  fun w =>
    match m w with
    | (Return a, w') => k a w'
    | (Throw t, w') => (Throw t, w')
    end.

(** How an [async] function whose [catch] block is the last thing it runs
    settles: if the block throws, with that; if the block returns, the
    function falls off its end and resolves with [undefined] ([None]). *)
Definition caught {A} (c : completion unit) : completion (option A) :=
  match c with
  | Return tt => Return None
  | Throw t => Throw t
  end.

(** [try { body } catch (error) { handler(error); }] as the whole body of
    an [async] function. *)
Definition try_catch {A} (body : M A) (handler : thrown -> completion unit)
  : M (option A) :=
  fun w =>
    match body w with
    | (Return a, w') => (Return (Some a), w')
    | (Throw t, w') => (caught (handler t), w')
    end.

Definition set_aiInstance (ai : GoogleGenAI) : M unit :=
  fun w =>
    (Return tt,
     {| aiInstance := Some ai; API_KEY := API_KEY w; calls := calls w |}).

Definition record_call (c : RemoteCall) : M unit :=
  fun w =>
    (Return tt,
     {| aiInstance := aiInstance w; API_KEY := API_KEY w;
        calls := c :: calls w |}).

Definition settle {A} (c : completion A) : M A := fun w => (c, w).

End Effects.
Export Effects.

Declare Scope js_scope.
Delimit Scope js_scope with js.
Notation "x <- m ;; k" := (bind m (fun x => k))
  (at level 61, m at next level, right associativity) : js_scope.
Notation "m ;; k" := (bind m (fun _ => k))
  (at level 61, right associativity) : js_scope.

(* ===================================================================== *)
(** ** The requests *)
(* ===================================================================== *)

Module Requests.

(** The argument of [generateImages] in [generateImage]. *)
Definition imageRequest (prompt : jsstring) (numberOfImages : option Z)
  : GenerateImagesParameters :=
  {| images_model := lit "imagen-4.0-generate-001";
     images_prompt := prompt;
     Sdk.numberOfImages :=
       match numberOfImages with Some n => n | None => 1%Z end;
     outputMimeType := lit "image/jpeg";
     aspectRatio := lit "1:1" |}.

(** The argument of [generateContent] in [generateStructuredText]. *)
Definition structuredRequest (prompt : jsstring) (responseSchema : Schema)
  : GenerateContentParameters :=
  {| model := lit "gemini-2.5-flash";
     contents := PromptContents prompt;
     config := Some {| responseMimeType := Some (lit "application/json");
                       Sdk.responseSchema := Some responseSchema;
                       responseModalities := None |} |}.

(** ... in [generateText]. *)
Definition textRequest (prompt : jsstring) : GenerateContentParameters :=
  {| model := lit "gemini-2.5-flash";
     contents := PromptContents prompt;
     config := None |}.

(** What [fileToGenerativePart] resolves with. *)
Definition generativePart (file : File) : Part :=
  {| text := None;
     inlineData := Some {| data := file_base64 file;
                           mimeType := file_type file |} |}.

(** ... in [generateTextWithImage]; the [config] is spread in only when
    [isJson] holds. *)
Definition textWithImageRequest (prompt : jsstring) (imagePart : Part)
    (isJson : bool) : GenerateContentParameters :=
  let textPart := {| text := Some prompt; inlineData := None |} in
  {| model := lit "gemini-2.5-flash";
     contents := PartsContents [imagePart; textPart];
     config :=
       if isJson
       then Some {| responseMimeType := Some (lit "application/json");
                    responseSchema := None;
                    responseModalities := None |}
       else None |}.

(** ... in [editImage]. *)
Definition editRequest (prompt : jsstring) (imagePart : Part)
  : GenerateContentParameters :=
  let textPart := {| text := Some prompt; inlineData := None |} in
  {| model := lit "gemini-2.5-flash-image-preview";
     contents := PartsContents [imagePart; textPart];
     config := Some {| responseMimeType := None;
                       responseSchema := None;
                       responseModalities := Some [IMAGE; TEXT] |} |}.

(** The schema [generateColorPalette] asks for. *)
Definition paletteSchema : Schema :=
  MkSchema OBJECT None
    [(lit "palette",
      MkSchema ARRAY (Some (lit "An array of 5 color objects."))
        []
        (Some
           (MkSchema OBJECT None
              [(lit "name",
                MkSchema STRING (Some (lit "The creative name of the color."))
                  [] None []);
               (lit "hex",
                MkSchema STRING
                  (Some (lit "The hex code for the color (e.g., #RRGGBB)."))
                  [] None [])]
              None
              [lit "name"; lit "hex"]))
        [])]
    None
    [lit "palette"].

(** The prompt [generateColorPalette] synthesizes. *)
Definition palettePrompt (theme : jsstring) : jsstring :=
  lit "Generate a color palette with 5 colors for the theme: " ++ theme
  ++ lit ". Provide creative names for each color.".

End Requests.
Export Requests.

(* ===================================================================== *)
(** ** The operations of the module *)
(* ===================================================================== *)

Section Operations.

Variable host : Host.

Local Open Scope js_scope.

(** [getAiInstance()] *)
Definition getAiInstance : M GoogleGenAI :=
  fun w =>
    match aiInstance w with
    | Some ai => ret ai w
    | None =>
        match API_KEY w with
        | Some ((_ :: _) as apiKey) =>
            let ai := {| apiKey := apiKey |} in
            (set_aiInstance ai ;; ret ai) w
        | _ =>
            (* [!apiKey]: undefined or the empty string *)
            throw (ErrorObject (new_Error CONFIG_MESSAGE)) w
        end
    end.

(** [await ai.models.generateImages(params)] *)
Definition await_generateImages (ai : GoogleGenAI)
    (params : GenerateImagesParameters) : M GenerateImagesResponse :=
  record_call (GenerateImages ai params) ;;
  settle (generateImages host ai params).

(** [await ai.models.generateContent(params)] *)
Definition await_generateContent (ai : GoogleGenAI)
    (params : GenerateContentParameters) : M GenerateContentResponse :=
  record_call (GenerateContent ai params) ;;
  settle (generateContent host ai params).

(** [await fileToGenerativePart(file)] *)
Definition fileToGenerativePart (file : File) : M Part :=
  ret (generativePart file).

(** [JSON.parse(text)] as a statement: a failure throws the engine's
    [SyntaxError]. *)
Definition JSON_parse_or_throw (text : jsstring) : M json :=
  match JSON_parse text with
  | Some v => ret v
  | None =>
      throw (ErrorObject {| name := lit "SyntaxError";
                            message := syntaxErrorMessage host text |})
  end.

(** [generateImage(prompt, numberOfImages = 1)] *)
Definition generateImage (prompt : jsstring) (numberOfImages : option Z)
  : M (option (list jsstring)) :=
  try_catch
    (ai <- getAiInstance ;;
     response <- await_generateImages ai (imageRequest prompt numberOfImages) ;;
     match generatedImages response with
     | Some ((_ :: _) as images) =>
         ret (map (fun img => lit "data:image/jpeg;base64," ++ imageBytes img)
                  images)
     | _ => throw (ErrorObject (new_Error (lit "No images were generated.")))
     end)
    (fun error => handleError error (lit "generate image")).

(** [generateStructuredText(prompt, responseSchema)] *)
Definition generateStructuredText (prompt : jsstring) (responseSchema : Schema)
  : M (option json) :=
  try_catch
    (ai <- getAiInstance ;;
     response <- await_generateContent ai
                   (structuredRequest prompt responseSchema) ;;
     let jsonString := trim (response_text response) in
     JSON_parse_or_throw jsonString)
    (fun error => handleError error (lit "generate structured text")).

(** [generateText(prompt)] *)
Definition generateText (prompt : jsstring) : M (option jsstring) :=
  try_catch
    (ai <- getAiInstance ;;
     response <- await_generateContent ai (textRequest prompt) ;;
     ret (response_text response))
    (fun error => handleError error (lit "generate text")).

(** [generateTextWithImage(prompt, image, isJson = false)].  A string result
    is the JSON value [JString]; the fallback is the object
    [{ rawResponse: textResponse }]. *)
Definition generateTextWithImage (prompt : jsstring) (image : File)
    (isJson : option bool) : M (option json) :=
  let isJson := match isJson with Some b => b | None => false end in
  try_catch
    (ai <- getAiInstance ;;
     imagePart <- fileToGenerativePart image ;;
     response <- await_generateContent ai
                   (textWithImageRequest prompt imagePart isJson) ;;
     let textResponse := response_text response in
     if isJson then
       match JSON_parse textResponse with
       | Some v => ret v
       | None => ret (JObject [(lit "rawResponse", JString textResponse)])
       end
     else ret (JString textResponse))
    (fun error => handleError error (lit "generate text with image")).

(** The result of [editImage]. *)
Record EditResult : Type := {
  edit_text : option jsstring;
  edit_image : option jsstring
}.

(** The template [data:${mimeType};base64,${base64ImageBytes}]. *)
Definition dataUri (d : InlineData) : jsstring :=
  lit "data:" ++ mimeType d ++ lit ";base64," ++ data d.

(** One turn of the loop over the parts: the state is
    [(resultText, resultImage)]. *)
Definition scan_part (acc : option jsstring * option jsstring) (part : Part)
  : option jsstring * option jsstring :=
  let (resultText, resultImage) := acc in
  if negb (falsy (text part)) then (text part, resultImage)
  else
    match inlineData part with
    | Some d => (resultText, Some (dataUri d))
    | None => (resultText, resultImage)
    end.

Definition scan_parts (parts : list Part) : option jsstring * option jsstring :=
  fold_left scan_part parts (None, None).

(** [editImage(prompt, image)] *)
Definition editImage (prompt : jsstring) (image : File)
  : M (option EditResult) :=
  try_catch
    (ai <- getAiInstance ;;
     imagePart <- fileToGenerativePart image ;;
     response <- await_generateContent ai (editRequest prompt imagePart) ;;
     let (resultText, resultImage) := scan_parts (response_parts response) in
     if falsy resultImage
     then throw (ErrorObject
                   (new_Error (lit "The AI did not return an edited image.")))
     else ret {| edit_text := resultText; edit_image := resultImage |})
    (fun error => handleError error (lit "edit image")).

(** [result.palette], where [result] is what [generateStructuredText]
    resolved with. *)
Definition read_palette (result : option json) : M (option json) :=
  match result with
  | None | Some JNull =>
      throw (ErrorObject
               {| name := lit "TypeError";
                  message := typeErrorMessage host result (lit "palette") |})
  | Some v => ret (get v (lit "palette"))
  end.

(** [generateColorPalette(theme)]: the array is returned as it is. *)
Definition generateColorPalette (theme : jsstring) : M (option (list json)) :=
  try_catch
    (let prompt := palettePrompt theme in
     result <- generateStructuredText prompt paletteSchema ;;
     palette <- read_palette result ;;
     match palette with
     | Some (JArray colors) => ret colors
     | _ => throw (ErrorObject
                     (new_Error (lit "Invalid response format from API.")))
     end)
    (fun error => handleError error (lit "generate color palette")).

End Operations.

(* ===================================================================== *)
(** ** Readings of the specification *)
(* ===================================================================== *)

Module Readings.

(** The client an operation works with in world [w], if it gets one: the
    memoized handle, else a new one for a non-empty credential. *)
Definition client_of (w : World) : option GoogleGenAI :=
  match aiInstance w with
  | Some ai => Some ai
  | None =>
      match API_KEY w with
      | Some ((_ :: _) as apiKey) => Some {| apiKey := apiKey |}
      | _ => None
      end
  end.

(** The world once the client [ai] is memoized. *)
Definition with_client (ai : GoogleGenAI) (w : World) : World :=
  {| aiInstance := Some ai; API_KEY := API_KEY w; calls := calls w |}.

(** The world once the call [c] is logged. *)
Definition logged (c : RemoteCall) (w : World) : World :=
  {| aiInstance := aiInstance w; API_KEY := API_KEY w; calls := c :: calls w |}.

Definition has_text_field (p : Part) : bool :=
  match text p with Some _ => true | None => false end.

Definition has_inline_data (p : Part) : bool :=
  match inlineData p with Some _ => true | None => false end.

(** The specification's words: the content of the last-seen text part. *)
Definition last_text_part (parts : list Part) : option jsstring :=
  match find has_text_field (rev parts) with
  | Some p => text p
  | None => None
  end.

(** The specification's words: the last-seen inline-data part. *)
Definition last_inline_data_part (parts : list Part) : option InlineData :=
  match find has_inline_data (rev parts) with
  | Some p => inlineData p
  | None => None
  end.

(** What the loop keeps: a part counts as text when its text is a
    non-empty string ... *)
Definition has_nonempty_text (p : Part) : bool := negb (falsy (text p)).

(** ... and as an image when it does not count as text and has inline
    data. *)
Definition is_image_only (p : Part) : bool :=
  falsy (text p) && has_inline_data p.

Definition last_nonempty_text (parts : list Part) : option jsstring :=
  match find has_nonempty_text (rev parts) with
  | Some p => text p
  | None => None
  end.

Definition last_image_only (parts : list Part) : option InlineData :=
  match find is_image_only (rev parts) with
  | Some p => inlineData p
  | None => None
  end.

End Readings.
Export Readings.

(* ===================================================================== *)
(** ** Sample hosts, worlds, messages and responses *)
(* ===================================================================== *)

Module Samples.

(** A host whose service fulfils every call with the same response. *)
Definition steady_host (content : GenerateContentResponse)
    (images : GenerateImagesResponse) : Host :=
  {| generateImages := fun _ _ => Return images;
     generateContent := fun _ _ => Return content;
     syntaxErrorMessage := fun _ => lit "Unexpected token";
     typeErrorMessage := fun _ _ => lit "Cannot read properties" |}.

Definition text_host (t : jsstring) : Host :=
  steady_host {| response_text := t; response_parts := [] |}
              {| generatedImages := None |}.

Definition parts_host (parts : list Part) : Host :=
  steady_host {| response_text := []; response_parts := parts |}
              {| generatedImages := None |}.

Definition images_host (images : option (list GeneratedImage)) : Host :=
  steady_host {| response_text := []; response_parts := [] |}
              {| generatedImages := images |}.

(** A fresh process with a credential, and one without. *)
Definition configured : World :=
  {| aiInstance := None; API_KEY := Some (lit "secret"); calls := [] |}.

Definition unconfigured : World :=
  {| aiInstance := None; API_KEY := None; calls := [] |}.

Definition photo : File :=
  {| file_type := lit "image/png"; file_base64 := lit "aGVsbG8=" |}.

(** A [null] entry before the entry with the reason, the reason's
    underscore written as an escape. *)
Definition null_then_key : jsstring :=
  jq "{'error':{'details':[null,{'reason':'API_KEY\u005fINVALID'}]}}".

(** The same without the [null] entry. *)
Definition escaped_key : jsstring :=
  jq "{'error':{'details':[{'reason':'API_KEY\u005fINVALID'}]}}".

(** The envelope of property P5, written without escapes. *)
Definition plain_key : jsstring :=
  jq "{'error':{'details':[{'reason':'API_KEY_INVALID'}]}}".

Definition emptyPaletteText : jsstring := jq "{'palette':[]}".

Definition pictureA : InlineData :=
  {| data := lit "QQ=="; mimeType := lit "image/png" |}.

Definition pictureB : InlineData :=
  {| data := lit "Qg=="; mimeType := lit "image/png" |}.

(** The parts of property P6: text, image, text, image. *)
Definition textImageTextImage : list Part :=
  [ {| text := Some (lit "before"); inlineData := None |};
    {| text := None; inlineData := Some pictureA |};
    {| text := Some (lit "after"); inlineData := None |};
    {| text := None; inlineData := Some pictureB |} ].

(** An image, then an image with a caption, then an empty text. *)
Definition mixedParts : list Part :=
  [ {| text := None; inlineData := Some pictureA |};
    {| text := Some (lit "caption"); inlineData := Some pictureB |};
    {| text := Some []; inlineData := None |} ].

Definition emptyTextWithImage : Part :=
  {| text := Some []; inlineData := Some pictureA |}.

Definition captionedImage : Part :=
  {| text := Some (lit "caption"); inlineData := Some pictureB |}.

End Samples.
Export Samples.

(* ===================================================================== *)
(** ** The exported surface as a whole *)
(* ===================================================================== *)

Module Gateway.

(** One call of an exported function, with its arguments. *)
Inductive Operation : Type :=
| GenerateImage (prompt : jsstring) (numberOfImages : option Z)
| GenerateStructuredText (prompt : jsstring) (responseSchema : Schema)
| GenerateText (prompt : jsstring)
| GenerateTextWithImage (prompt : jsstring) (image : File)
    (isJson : option bool)
| EditImage (prompt : jsstring) (image : File)
| GenerateColorPalette (theme : jsstring).

(** What such a call resolves with. *)
Inductive Resolution : Type :=
| ImageUris (uris : list jsstring)
| StructuredValue (v : json)
| PlainText (t : jsstring)
| TextOrValue (v : json)
| Edited (r : EditResult)
| Colors (colors : list json).

Definition resolved {A} (f : A -> Resolution) (m : M (option A))
  : M (option Resolution) :=
  fun w =>
    match m w with
    | (Return r, w') => (Return (option_map f r), w')
    | (Throw t, w') => (Throw t, w')
    end.

Definition invoke (host : Host) (op : Operation) : M (option Resolution) :=
  match op with
  | GenerateImage prompt n => resolved ImageUris (generateImage host prompt n)
  | GenerateStructuredText prompt schema =>
      resolved StructuredValue (generateStructuredText host prompt schema)
  | GenerateText prompt => resolved PlainText (generateText host prompt)
  | GenerateTextWithImage prompt image isJson =>
      resolved TextOrValue (generateTextWithImage host prompt image isJson)
  | EditImage prompt image => resolved Edited (editImage host prompt image)
  | GenerateColorPalette theme =>
      resolved Colors (generateColorPalette host theme)
  end.

(** The label the function hands to [handleError]. *)
Definition context_of (op : Operation) : jsstring :=
  match op with
  | GenerateImage _ _ => lit "generate image"
  | GenerateStructuredText _ _ => lit "generate structured text"
  | GenerateText _ => lit "generate text"
  | GenerateTextWithImage _ _ _ => lit "generate text with image"
  | EditImage _ _ => lit "edit image"
  | GenerateColorPalette _ => lit "generate color palette"
  end.

(** The remote call the function issues through the client [ai]. *)
Definition call_of (ai : GoogleGenAI) (op : Operation) : RemoteCall :=
  match op with
  | GenerateImage prompt n => GenerateImages ai (imageRequest prompt n)
  | GenerateStructuredText prompt schema =>
      GenerateContent ai (structuredRequest prompt schema)
  | GenerateText prompt => GenerateContent ai (textRequest prompt)
  | GenerateTextWithImage prompt image isJson =>
      GenerateContent ai
        (textWithImageRequest prompt (generativePart image)
           (match isJson with Some b => b | None => false end))
  | EditImage prompt image =>
      GenerateContent ai (editRequest prompt (generativePart image))
  | GenerateColorPalette theme =>
      GenerateContent ai (structuredRequest (palettePrompt theme) paletteSchema)
  end.

(** What the service rejects that call with, if it rejects it. *)
Definition rejection (host : Host) (c : RemoteCall) : option thrown :=
  match c with
  | GenerateImages ai params =>
      match generateImages host ai params with
      | Throw t => Some t
      | Return _ => None
      end
  | GenerateContent ai params =>
      match generateContent host ai params with
      | Throw t => Some t
      | Return _ => None
      end
  end.

Definition is_palette (op : Operation) : bool :=
  match op with
  | GenerateColorPalette _ => true
  | _ => false
  end.

(** Calls made one after the other, each awaited before the next. *)
Fixpoint invoke_all (host : Host) (ops : list Operation) (w : World)
  : list (completion (option Resolution)) * World :=
  match ops with
  | [] => ([], w)
  | op :: ops' =>
      let (r, w') := invoke host op w in
      let (rs, w'') := invoke_all host ops' w' in
      (r :: rs, w'')
  end.

(** The world with the configuration variable set to [key]. *)
Definition with_key (key : option jsstring) (w : World) : World :=
  {| aiInstance := aiInstance w; API_KEY := key; calls := calls w |}.

(** The client a remote call went through. *)
Definition client_in (c : RemoteCall) : GoogleGenAI :=
  match c with
  | GenerateImages ai _ => ai
  | GenerateContent ai _ => ai
  end.

(** A host whose service rejects every call with [t]. *)
Definition rejecting_host (t : thrown) : Host :=
  {| generateImages := fun _ _ => Throw t;
     generateContent := fun _ _ => Throw t;
     syntaxErrorMessage := fun _ => lit "Unexpected token";
     typeErrorMessage := fun _ _ => lit "Cannot read properties" |}.

End Gateway.
Export Gateway.
(* ===================================================================== *)
(** ** Facts about strings *)
(* ===================================================================== *)

Module JsStringFacts.

Lemma startsWith_app (s p : jsstring) :
  startsWith s p = true <-> exists post, s = p ++ post.
Proof.
  revert s. induction p as [|c p IH]; intros s; simpl.
  - split; [intros _; now exists s | reflexivity].
  - destruct s as [|d s]; simpl.
    + split; [discriminate | intros [post H]; discriminate].
    + rewrite andb_true_iff, N.eqb_eq, IH. split.
      * intros [-> [post ->]]. now exists post.
      * intros [post H]. injection H as -> ->. split; [reflexivity | now exists post].
Qed.

Lemma includes_infix (s sub : jsstring) :
  includes s sub = true <-> infix sub s.
Proof.
  unfold infix. induction s as [|d s IH]; simpl.
  - rewrite orb_false_r, startsWith_app. split.
    + intros [post H]. now exists [], post.
    + intros [pre [post H]]. destruct pre; simpl in H.
      * now exists post.
      * discriminate.
  - rewrite orb_true_iff, IH, startsWith_app. split.
    + intros [[post H] | [pre [post H]]].
      * now exists [], post.
      * exists (d :: pre), post. simpl. now rewrite H.
    + intros [pre [post H]]. destruct pre as [|e pre]; simpl in H.
      * left. now exists post.
      * right. injection H as _ H. now exists pre, post.
Qed.

Lemma infix_tail (sub pre s : jsstring) : infix sub s -> infix sub (pre ++ s).
Proof.
  intros [a [b ->]]. exists (pre ++ a), b. now rewrite app_assoc.
Qed.

Lemma infix_head (sub s post : jsstring) : infix sub s -> infix sub (s ++ post).
Proof.
  intros [a [b ->]]. exists a, (b ++ post). now rewrite <- !app_assoc.
Qed.

End JsStringFacts.
Export JsStringFacts.

(* ===================================================================== *)
(** ** Facts about the parser *)
(* ===================================================================== *)

Module JsonFacts.

Lemma tail_of_refl s : tail_of s s.
Proof. now exists []. Qed.

Lemma tail_of_trans a b c : tail_of a b -> tail_of b c -> tail_of a c.
Proof. intros [p ->] [q ->]. exists (q ++ p). now rewrite app_assoc. Qed.

Lemma tail_of_cons c rest s : tail_of rest s -> tail_of rest (c :: s).
Proof. intros [p ->]. now exists (c :: p). Qed.

Lemma tail_of_length rest s :
  tail_of rest s -> (List.length rest <= List.length s)%nat.
Proof. intros [p ->]. rewrite length_app. lia. Qed.

Lemma tail_of_infix sub rest s : tail_of rest s -> infix sub rest -> infix sub s.
Proof. intros [p ->]. apply infix_tail. Qed.

Lemma tail_of_In c rest s : tail_of rest s -> In c rest -> In c s.
Proof. intros [p ->] H. apply in_or_app. now right. Qed.

Lemma shorter_cons c rest s : tail_of rest s -> shorter_tail rest (c :: s).
Proof.
  intros H. split; [now apply tail_of_cons|].
  apply tail_of_length in H. simpl. lia.
Qed.

Lemma shorter_tail_l a b c : tail_of a b -> shorter_tail b c -> shorter_tail a c.
Proof.
  intros H [H1 H2]. split; [eapply tail_of_trans; eassumption|].
  apply tail_of_length in H. lia.
Qed.

Lemma shorter_tail_r a b c : shorter_tail a b -> tail_of b c -> shorter_tail a c.
Proof.
  intros [H1 H2] H. split; [eapply tail_of_trans; eassumption|].
  apply tail_of_length in H. lia.
Qed.

Lemma skip_ws_tail s : tail_of (skip_ws s) s.
Proof.
  induction s as [|c s IH]; simpl.
  - apply tail_of_refl.
  - destruct (isJsonSpace c); [now apply tail_of_cons | apply tail_of_refl].
Qed.

Lemma cons_char_Some c r str rest :
  cons_char c r = Some (str, rest) ->
  exists str', r = Some (str', rest) /\ str = c :: str'.
Proof.
  destruct r as [[str' rest']|]; simpl; [|discriminate].
  intros H. injection H as <- <-. now exists str'.
Qed.

Lemma parse_chars_tail_bounded n : forall s str rest,
  (List.length s <= n)%nat ->
  parse_chars s = Some (str, rest) -> shorter_tail rest s.
Proof.
  induction n as [|n IH]; intros s str rest Hn H;
    (destruct s as [|c s']; simpl in H; [discriminate|]);
    simpl in Hn; [lia|].
  destruct (c =? 34).
  { injection H as <- <-. apply shorter_cons, tail_of_refl. }
  destruct (c =? 92).
  - destruct s' as [|e s'']; [discriminate|].
    destruct (escape e).
    + apply cons_char_Some in H as (str' & H & _).
      apply IH in H; [|simpl in Hn; lia].
      apply shorter_cons, tail_of_cons, H.
    + destruct (e =? 117); [|discriminate].
      destruct s'' as [|h1 [|h2 [|h3 [|h4 s5]]]]; try discriminate.
      destruct (hex4 h1 h2 h3 h4); [|discriminate].
      apply cons_char_Some in H as (str' & H & _).
      apply IH in H; [|simpl in Hn; lia].
      apply shorter_cons. do 5 apply tail_of_cons. apply H.
  - destruct (c <? 32); [discriminate|].
    apply cons_char_Some in H as (str' & H & _).
    apply IH in H; [|lia].
    apply shorter_cons, H.
Qed.

Lemma parse_chars_tail s str rest :
  parse_chars s = Some (str, rest) -> shorter_tail rest s.
Proof. apply (parse_chars_tail_bounded (List.length s)). lia. Qed.

(** Without a backslash in the input a string literal denotes the very
    code units between its quotes. *)
Lemma parse_chars_plain s : forall str rest,
  ~ In 92 s -> parse_chars s = Some (str, rest) -> s = str ++ 34 :: rest.
Proof.
  induction s as [|c s IH]; intros str rest Hno H; simpl in H; [discriminate|].
  destruct (c =? 34) eqn:E34.
  { injection H as <- <-. apply N.eqb_eq in E34. now subst. }
  destruct (c =? 92) eqn:E92.
  { apply N.eqb_eq in E92. exfalso. apply Hno. now left. }
  destruct (c <? 32); [discriminate|].
  apply cons_char_Some in H as (str' & H & ->).
  apply IH in H; [|intros Hin; apply Hno; now right].
  simpl. now rewrite <- H.
Qed.

Lemma span_digits_app s : forall ds rest,
  span_digits s = (ds, rest) -> s = ds ++ rest.
Proof.
  induction s as [|c s IH]; intros ds rest H; simpl in H.
  - now injection H as <- <-.
  - destruct (isDigit c).
    + destruct (span_digits s) as [ds' rest'] eqn:E.
      injection H as <- <-. simpl. f_equal. now apply IH.
    + now injection H as <- <-.
Qed.

Lemma parse_int_app s i rest :
  parse_int s = Some (i, rest) -> s = i ++ rest /\ i <> [].
Proof.
  destruct s as [|c s]; simpl; [discriminate|].
  destruct (c =? 48).
  - intros H. injection H as <- <-. split; [reflexivity | discriminate].
  - destruct (isDigit c); [|discriminate].
    destruct (span_digits s) as [ds r] eqn:E. intros H. injection H as <- <-.
    apply span_digits_app in E. subst. split; [reflexivity | discriminate].
Qed.

Lemma parse_frac_app s f rest : parse_frac s = Some (f, rest) -> s = f ++ rest.
Proof.
  destruct s as [|c s]; simpl.
  - intros H. now injection H as <- <-.
  - destruct (c =? 46).
    + destruct (span_digits s) as [ds r] eqn:E. apply span_digits_app in E.
      destruct ds; [discriminate|]. intros H. injection H as <- <-. now subst.
    + intros H. now injection H as <- <-.
Qed.

Lemma parse_exp_app s e rest : parse_exp s = Some (e, rest) -> s = e ++ rest.
Proof.
  destruct s as [|c s]; simpl.
  - intros H. now injection H as <- <-.
  - destruct ((c =? 101) || (c =? 69)).
    + match goal with
      | |- context [let (_, _) := ?x in _] => destruct x as [sign s1] eqn:Es
      end.
      assert (Hs : s = sign ++ s1).
      { destruct s as [|d s'']; [now injection Es as <- <-|].
        destruct ((d =? 43) || (d =? 45)); now injection Es as <- <-. }
      destruct (span_digits s1) as [ds r] eqn:E. apply span_digits_app in E.
      destruct ds; [discriminate|]. intros H. injection H as <- <-.
      subst. simpl. now rewrite <- app_assoc.
    + intros H. now injection H as <- <-.
Qed.

(** A number's lexeme is exactly the text that was read. *)
Lemma parse_number_app s lexeme rest :
  parse_number s = Some (lexeme, rest) -> s = lexeme ++ rest /\ lexeme <> [].
Proof.
  unfold parse_number.
  match goal with
  | |- context [let (_, _) := ?x in _] => destruct x as [sign s0] eqn:Es
  end.
  assert (Hs : s = sign ++ s0).
  { destruct s as [|c s']; [now injection Es as <- <-|].
    destruct (c =? 45); now injection Es as <- <-. }
  destruct (parse_int s0) as [[i s1]|] eqn:Ei; [|discriminate].
  destruct (parse_frac s1) as [[f s2]|] eqn:Ef; [|discriminate].
  destruct (parse_exp s2) as [[e s3]|] eqn:Ee; [|discriminate].
  intros H. injection H as <- <-.
  apply parse_int_app in Ei as [-> Hi]. apply parse_frac_app in Ef as ->.
  apply parse_exp_app in Ee as ->. subst s. split.
  - now rewrite <- !app_assoc.
  - destruct sign; [destruct i; [congruence | discriminate] | discriminate].
Qed.

Lemma parse_number_tail s lexeme rest :
  parse_number s = Some (lexeme, rest) -> shorter_tail rest s.
Proof.
  intros H. apply parse_number_app in H as [-> Hne]. split.
  - now exists lexeme.
  - rewrite length_app. destruct lexeme; [congruence | simpl; lia].
Qed.

Lemma strip_app p : forall s rest, strip p s = Some rest -> s = p ++ rest.
Proof.
  induction p as [|c p IH]; intros s rest H; simpl in H.
  - now injection H as <-.
  - destruct s as [|d s]; [discriminate|].
    destruct (c =? d) eqn:E; [|discriminate].
    apply N.eqb_eq in E. subst. simpl. f_equal. now apply IH.
Qed.

Lemma strip_tail p s rest :
  p <> [] -> strip p s = Some rest -> shorter_tail rest s.
Proof.
  intros Hp H. apply strip_app in H as ->. split.
  - now exists p.
  - rewrite length_app. destruct p; [congruence | simpl; lia].
Qed.

(** Case analysis on the first test of a parser equation. *)
Ltac break_in H :=
  match type of H with
  | context [match ?x with _ => _ end] => destruct x eqn:?
  end.

Ltac break_goal :=
  match goal with
  | |- context [match ?x with _ => _ end] => destruct x eqn:?
  end.

Ltac unfold_parser_in H :=
  cbn [parse_value parse_elements parse_members] in H.

Ltac inv_parsed H := injection H as <- <-.

(** Turn the equations left by a case analysis into facts about tails. *)
Ltac tail_facts IHv IHe IHm :=
  repeat match goal with
  | H : skip_ws ?a = ?b |- _ =>
      let T := fresh "T" in
      pose proof (skip_ws_tail a) as T; rewrite H in T; clear H
  | H : parse_chars _ = Some _ |- _ => apply parse_chars_tail in H
  | H : parse_number _ = Some _ |- _ => apply parse_number_tail in H
  | H : strip _ _ = Some _ |- _ => apply strip_tail in H; [|discriminate]
  | H : parse_value _ _ = Parsed _ _ |- _ => apply IHv in H
  | H : parse_elements _ _ = Parsed _ _ |- _ => apply IHe in H
  | H : parse_members _ _ = Parsed _ _ |- _ => apply IHm in H
  end.

(** Chain such facts from the whole input down to the rest. *)
Ltac tail_chain :=
  repeat first
    [ apply tail_of_refl
    | match goal with
      | H : tail_of ?y ?x |- tail_of _ ?x =>
          apply (tail_of_trans _ y x); [|exact H]
      | H : shorter_tail ?y ?x |- tail_of _ ?x =>
          apply (tail_of_trans _ y x); [|exact (proj1 H)]
      | H : shorter_tail ?y (skip_ws ?x) |- tail_of _ ?x =>
          apply (tail_of_trans _ (skip_ws x) x); [|apply skip_ws_tail]
      end
    | apply tail_of_cons ].

Ltac shorter_chain :=
  match goal with
  | H : shorter_tail ?y ?x |- shorter_tail _ ?x =>
      apply (shorter_tail_l _ y x); [tail_chain | exact H]
  | |- shorter_tail _ (_ :: _) => apply shorter_cons; tail_chain
  end.

(** Every production reads a non-empty prefix of its input. *)
Lemma parse_tail (fuel : nat) :
  (forall s v rest, parse_value fuel s = Parsed v rest -> shorter_tail rest s) /\
  (forall s vs rest, parse_elements fuel s = Parsed vs rest -> shorter_tail rest s) /\
  (forall s ms rest, parse_members fuel s = Parsed ms rest -> shorter_tail rest s).
Proof.
  induction fuel as [|fuel (IHv & IHe & IHm)].
  { split; [|split]; intros; discriminate. }
  split; [|split].
  - intros s v rest H. unfold_parser_in H.
    destruct s as [|c s']; [discriminate|].
    repeat break_in H; try discriminate; inv_parsed H;
      tail_facts IHv IHe IHm; shorter_chain.
  - intros s vs rest H. unfold_parser_in H.
    repeat break_in H; try discriminate; inv_parsed H;
      tail_facts IHv IHe IHm; shorter_chain.
  - intros s ms rest H. unfold_parser_in H.
    destruct s as [|q s']; [discriminate|].
    repeat break_in H; try discriminate; inv_parsed H;
      tail_facts IHv IHe IHm; shorter_chain.
Qed.

Lemma parse_value_tail fuel s v rest :
  parse_value fuel s = Parsed v rest -> shorter_tail rest s.
Proof. apply parse_tail. Qed.

Lemma parse_elements_tail fuel s vs rest :
  parse_elements fuel s = Parsed vs rest -> shorter_tail rest s.
Proof. apply parse_tail. Qed.

Lemma parse_members_tail fuel s ms rest :
  parse_members fuel s = Parsed ms rest -> shorter_tail rest s.
Proof. apply parse_tail. Qed.

(** Lengths, from the facts about tails. *)
Ltac length_facts :=
  tail_facts parse_value_tail parse_elements_tail parse_members_tail;
  repeat match goal with
  | H : context [skip_ws ?x] |- _ =>
      lazymatch goal with
      | _ : (List.length (skip_ws x) <= List.length x)%nat |- _ => fail
      | _ => pose proof (tail_of_length _ _ (skip_ws_tail x))
      end
  end;
  repeat match goal with
  | H : tail_of _ _ |- _ => apply tail_of_length in H
  | H : shorter_tail _ _ |- _ => destruct H as [_ H]
  end;
  cbn [List.length] in *.

(** The parser never runs out of fuel when given a little more than twice
    the length of its input. *)
Lemma parse_fuel (fuel : nat) :
  (forall s, (2 * List.length s < fuel)%nat ->
     parse_value fuel s <> OutOfFuel) /\
  (forall s, (2 * List.length s + 1 < fuel)%nat ->
     parse_elements fuel s <> OutOfFuel) /\
  (forall s, (2 * List.length s + 1 < fuel)%nat ->
     parse_members fuel s <> OutOfFuel).
Proof.
  induction fuel as [|fuel (IHv & IHe & IHm)].
  { split; [|split]; intros; lia. }
  split; [|split].
  - intros s Hn H. unfold_parser_in H.
    destruct s as [|c s']; [discriminate|].
    repeat break_in H; try discriminate;
      match goal with
      | E : parse_elements _ ?y = OutOfFuel |- _ =>
          apply (IHe y); [|exact E]
      | E : parse_members _ ?y = OutOfFuel |- _ =>
          apply (IHm y); [|exact E]
      end; length_facts; lia.
  - intros s Hn H. unfold_parser_in H.
    repeat break_in H; try discriminate;
      match goal with
      | E : parse_elements _ ?y = OutOfFuel |- _ =>
          apply (IHe y); [|exact E]
      | E : parse_value _ ?y = OutOfFuel |- _ =>
          apply (IHv y); [|exact E]
      end; length_facts; lia.
  - intros s Hn H. unfold_parser_in H.
    destruct s as [|q s']; [discriminate|].
    repeat break_in H; try discriminate;
      match goal with
      | E : parse_members _ ?y = OutOfFuel |- _ =>
          apply (IHm y); [|exact E]
      | E : parse_value _ ?y = OutOfFuel |- _ =>
          apply (IHv y); [|exact E]
      end; length_facts; lia.
Qed.

(** [JSON_parse] is total on the grammar: its fuel is never exhausted, so
    [None] always stands for a syntax error. *)
Lemma JSON_parse_fuel (text : jsstring) :
  parse_value (fuel_for text) (skip_ws text) <> OutOfFuel.
Proof.
  apply parse_fuel. unfold fuel_for.
  pose proof (tail_of_length _ _ (skip_ws_tail text)). lia.
Qed.

Ltac more_fuel IHv IHe IHm fuel' :=
  repeat match goal with
  | E : parse_value _ ?y = Parsed ?a ?r |- _ =>
      apply (fun E => IHv y (Parsed a r) E ltac:(discriminate) fuel') in E; [|lia]
  | E : parse_elements _ ?y = Parsed ?a ?r |- _ =>
      apply (fun E => IHe y (Parsed a r) E ltac:(discriminate) fuel') in E; [|lia]
  | E : parse_members _ ?y = Parsed ?a ?r |- _ =>
      apply (fun E => IHm y (Parsed a r) E ltac:(discriminate) fuel') in E; [|lia]
  | E : parse_value _ ?y = SyntaxError |- _ =>
      apply (fun E => IHv y SyntaxError E ltac:(discriminate) fuel') in E; [|lia]
  | E : parse_elements _ ?y = SyntaxError |- _ =>
      apply (fun E => IHe y SyntaxError E ltac:(discriminate) fuel') in E; [|lia]
  | E : parse_members _ ?y = SyntaxError |- _ =>
      apply (fun E => IHm y SyntaxError E ltac:(discriminate) fuel') in E; [|lia]
  end.

Ltac rewrite_known :=
  repeat match goal with
  | E : ?lhs = _ |- context [?lhs] => rewrite E
  end.

(** More fuel never changes an answer. *)
Lemma parse_mono (fuel : nat) :
  (forall s r, parse_value fuel s = r -> r <> OutOfFuel ->
     forall fuel', (fuel <= fuel')%nat -> parse_value fuel' s = r) /\
  (forall s r, parse_elements fuel s = r -> r <> OutOfFuel ->
     forall fuel', (fuel <= fuel')%nat -> parse_elements fuel' s = r) /\
  (forall s r, parse_members fuel s = r -> r <> OutOfFuel ->
     forall fuel', (fuel <= fuel')%nat -> parse_members fuel' s = r).
Proof.
  induction fuel as [|fuel (IHv & IHe & IHm)].
  { split; [|split]; intros s r H Hr; simpl in H; congruence. }
  split; [|split]; intros s r H Hr fuel1 Hle;
    (destruct fuel1 as [|fuel']; [lia|]);
    unfold_parser_in H; cbn [parse_value parse_elements parse_members].
  - destruct s as [|c s']; [assumption|].
    repeat break_in H; try congruence;
      subst r; more_fuel IHv IHe IHm fuel'; rewrite_known; reflexivity.
  - repeat break_in H; try congruence;
      subst r; more_fuel IHv IHe IHm fuel'; rewrite_known; reflexivity.
  - destruct s as [|q s']; [assumption|].
    repeat break_in H; try congruence;
      subst r; more_fuel IHv IHe IHm fuel'; rewrite_known; reflexivity.
Qed.

(** Any fuel above the bound gives the answer of [JSON_parse]. *)
Lemma JSON_parse_any_fuel (text : jsstring) (fuel : nat) :
  (fuel_for text <= fuel)%nat ->
  parse_value fuel (skip_ws text) = parse_value (fuel_for text) (skip_ws text).
Proof.
  intros H. eapply parse_mono; [reflexivity | apply JSON_parse_fuel | exact H].
Qed.

Lemma plain_tail rest s : tail_of rest s -> plain s -> plain rest.
Proof. intros T H Hin. apply H. eapply tail_of_In; eassumption. Qed.

Ltac tail_to y whole :=
  assert (tail_of y whole)
    by (tail_facts parse_value_tail parse_elements_tail parse_members_tail;
        tail_chain).

Ltac by_IH IH :=
  eapply tail_of_infix; [eassumption|];
  eapply IH; [eapply plain_tail; eassumption | eassumption | eassumption ..].

(** Without escapes, every string value of the parsed text is a run of
    code units of the text. *)
Lemma parse_plain (fuel : nat) :
  (forall s v rest, plain s -> parse_value fuel s = Parsed v rest ->
     forall str, occurs str v -> infix str s) /\
  (forall s vs rest, plain s -> parse_elements fuel s = Parsed vs rest ->
     forall v str, In v vs -> occurs str v -> infix str s) /\
  (forall s ms rest, plain s -> parse_members fuel s = Parsed ms rest ->
     forall k v str, In (k, v) ms -> occurs str v -> infix str s).
Proof.
  induction fuel as [|fuel (IHv & IHe & IHm)].
  { split; [|split]; intros; discriminate. }
  split; [|split].
  - intros s v rest Hs H str Hocc. unfold_parser_in H.
    destruct s as [|c s']; [discriminate|].
    repeat break_in H; try discriminate; inv_parsed H;
      inversion Hocc; subst; try contradiction.
    + match goal with E : parse_members _ ?y = _ |- _ => tail_to y (c :: s') end.
      by_IH IHm.
    + match goal with E : parse_elements _ ?y = _ |- _ => tail_to y (c :: s') end.
      by_IH IHe.
    + match goal with E : parse_chars _ = _ |- _ =>
        apply parse_chars_plain in E; [|eapply plain_tail; [|exact Hs]] end.
      * subst s'. exists [c]. eexists. reflexivity.
      * apply tail_of_cons, tail_of_refl.
  - intros s vs rest Hs H v0 str Hin Hocc. unfold_parser_in H.
    repeat break_in H; try discriminate; inv_parsed H.
    + destruct Hin as [<- | Hin].
      * eapply IHv; eassumption.
      * match goal with E : parse_elements _ ?y = _ |- _ => tail_to y s end.
        by_IH IHe.
    + destruct Hin as [<- | []]. eapply IHv; eassumption.
  - intros s ms rest Hs H k0 v0 str Hin Hocc. unfold_parser_in H.
    destruct s as [|q s']; [discriminate|].
    repeat break_in H; try discriminate; inv_parsed H.
    + destruct Hin as [Heq | Hin].
      * injection Heq as <- <-.
        match goal with E : parse_value _ ?y = _ |- _ => tail_to y (q :: s') end.
        by_IH IHv.
      * match goal with E : parse_members _ ?y = _ |- _ => tail_to y (q :: s') end.
        by_IH IHm.
    + destruct Hin as [Heq | []]. injection Heq as <- <-.
      match goal with E : parse_value _ ?y = _ |- _ => tail_to y (q :: s') end.
      by_IH IHv.
Qed.

(** The same for [JSON.parse]. *)
Lemma JSON_parse_plain (text : jsstring) (v : json) (str : jsstring) :
  plain text -> JSON_parse text = Some v -> occurs str v -> infix str text.
Proof.
  unfold JSON_parse. intros Hs H Hocc.
  destruct (parse_value (fuel_for text) (skip_ws text)) as [v' rest| |] eqn:E;
    try discriminate.
  destruct (skip_ws rest); [|discriminate]. injection H as ->.
  eapply tail_of_infix; [apply skip_ws_tail|].
  eapply (proj1 (parse_plain _)); [|exact E|exact Hocc].
  eapply plain_tail; [apply skip_ws_tail | exact Hs].
Qed.

End JsonFacts.
Export JsonFacts.


(* ===================================================================== *)
(** ** Facts about property access *)
(* ===================================================================== *)

Module JsFacts.

Lemma str_eqb_eq (a b : jsstring) : str_eqb a b = true <-> a = b.
Proof.
  revert b. induction a as [|c a IH]; intros [|d b]; simpl;
    try (split; [discriminate | discriminate]); [tauto|].
  rewrite andb_true_iff, N.eqb_eq, IH. split.
  - intros [-> ->]. reflexivity.
  - intros H. injection H as -> ->. split; reflexivity.
Qed.

(** What [lookup] finds is a member with that key. *)
Lemma lookup_In (key : jsstring) (members : list (jsstring * json)) (v : json) :
  lookup key members = Some v -> In (key, v) members.
Proof.
  induction members as [|[k v'] members IH]; simpl; [discriminate|].
  destruct (lookup key members) as [v''|].
  - intros H. injection H as ->. right. now apply IH.
  - destruct (str_eqb k key) eqn:E; [|discriminate].
    intros H. injection H as ->. apply str_eqb_eq in E. subst. now left.
Qed.

(** [parsedError?.error?.details] is an array exactly for an object whose
    [error] is an object whose [details] is that array. *)
Lemma details_chain (parsed : json) (ds : list json) :
  opt_get (opt_get (Some parsed) (lit "error")) (lit "details")
    = Some (JArray ds) <->
  exists top err,
    parsed = JObject top /\
    lookup (lit "error") top = Some (JObject err) /\
    lookup (lit "details") err = Some (JArray ds).
Proof.
  split.
  - destruct parsed as [| | | | |top]; try discriminate.
    cbn [opt_get get].
    destruct (lookup (lit "error") top) as [[| | | | |err]|] eqn:E;
      try discriminate.
    cbn [opt_get get]. intros H. now exists top, err.
  - intros (top & err & -> & E1 & E2). cbn [opt_get get].
    rewrite E1. cbn [opt_get get]. exact E2.
Qed.

Lemma existsb_same {A} (f g : A -> bool) (l : list A) :
  (forall x, f x = g x) -> existsb f l = existsb g l.
Proof.
  intros H. induction l as [|x l IH]; simpl; [reflexivity|].
  now rewrite H, IH.
Qed.

Lemma json_is_null (d : json) : {d = JNull} + {d <> JNull}.
Proof. destruct d; (now left) || (right; discriminate). Qed.

End JsFacts.
Export JsFacts.

(* ===================================================================== *)
(** ** The error classifier *)
(* ===================================================================== *)

Module ClassifierFacts.

Lemma config_message_has_prefix : startsWith CONFIG_MESSAGE CONFIG_PREFIX = true.
Proof. vm_compute. reflexivity. Qed.

(** Every path of [handleError] ends in a [throw]. *)
Lemma handleError_throws (error : thrown) (context : jsstring) :
  exists t, handleError error context = Throw t.
Proof.
  destruct error as [e|v]; unfold handleError.
  - destruct (startsWith (message e) CONFIG_PREFIX); [eauto|].
    match goal with |- context [if ?b then Throw _ else _] => destruct b end;
      eauto.
  - eauto.
Qed.

(** An error carrying the prefix goes through unchanged. *)
Lemma handleError_passthrough (e : JsError) (context : jsstring) :
  startsWith (message e) CONFIG_PREFIX = true ->
  handleError (ErrorObject e) context = Throw (ErrorObject e).
Proof. intros H. unfold handleError. now rewrite H. Qed.

Lemma handleError_ConfigurationError (context : jsstring) :
  handleError ConfigurationError context = Throw ConfigurationError.
Proof. apply handleError_passthrough. apply config_message_has_prefix. Qed.

(** What [handleError] does with any other [Error]. *)
Lemma handleError_classified (e : JsError) (context : jsstring) :
  startsWith (message e) CONFIG_PREFIX = false ->
  handleError (ErrorObject e) context =
    if includes (message e) (lit "API key not valid")
       || includes (message e) API_KEY_INVALID
       || probe (message e)
    then Throw ConfigurationError
    else Throw (GenericFailure context (message e)).
Proof.
  intros H. unfold handleError. rewrite H.
  destruct (includes (message e) (lit "API key not valid")
            || includes (message e) API_KEY_INVALID); reflexivity.
Qed.

Lemma generic_is_not_configuration_message (context original : jsstring) :
  new_Error (genericMessage context original) <> new_Error CONFIG_MESSAGE.
Proof.
  intros H. apply (f_equal (fun e => hd 0 (message e))) in H.
  vm_compute in H. discriminate.
Qed.

Lemma generic_is_not_configuration (context original : jsstring) :
  GenericFailure context original <> ConfigurationError.
Proof.
  unfold GenericFailure, ConfigurationError. intros H.
  apply (generic_is_not_configuration_message context original). congruence.
Qed.

Lemma reason_is_invalid_key_object (d : json) :
  reason_is_invalid_key d =
    match d with
    | JObject entry =>
        match lookup (lit "reason") entry with
        | Some (JString s) => str_eqb s API_KEY_INVALID
        | _ => false
        end
    | _ => false
    end.
Proof. destruct d; reflexivity. Qed.

Lemma some_reason_cons (d : json) (ds : list json) :
  d <> JNull ->
  some_reason (d :: ds) =
    if reason_is_invalid_key d then Some true else some_reason ds.
Proof. destruct d; intros; [congruence | reflexivity ..]. Qed.

(** The scan answers [true] exactly when some entry has the reason and no
    [null] entry comes before it. *)
Lemma some_reason_true (ds : list json) :
  some_reason ds = Some true <->
  exists before d after,
    ds = before ++ d :: after /\ ~ In JNull before /\
    reason_is_invalid_key d = true.
Proof.
  induction ds as [|d ds IH].
  - simpl. split; [discriminate|].
    intros (before & d & after & H & _). destruct before; discriminate.
  - pose proof (some_reason_cons d ds) as Hstep.
    split.
    + intros H. destruct (json_is_null d) as [->|Hd]; [discriminate|].
      rewrite (Hstep Hd) in H.
      destruct (reason_is_invalid_key d) eqn:E.
      * exists [], d, ds. repeat split; auto.
      * apply IH in H as (before & d' & after & -> & Hn & Hd').
        exists (d :: before), d', after. repeat split; auto.
        intros [Heq | Hin]; [congruence | contradiction].
    + intros (before & d' & after & H & Hn & Hd').
      destruct before as [|b before]; simpl in H.
      * injection H as <- <-.
        assert (Hd : d <> JNull) by (intros ->; discriminate).
        rewrite (Hstep Hd), Hd'. reflexivity.
      * injection H as <- ->.
        assert (Hd : d <> JNull) by (intros ->; apply Hn; now left).
        rewrite (Hstep Hd). destruct (reason_is_invalid_key d); [reflexivity|].
        apply IH. exists before, d', after. repeat split; auto.
        intros Hin. apply Hn. now right.
Qed.

Lemma some_reason_exists (ds : list json) :
  some_reason ds = Some true -> existsb reason_is_invalid_key ds = true.
Proof.
  intros H. apply some_reason_true in H as (before & d & after & -> & _ & Hd).
  apply existsb_exists. exists d. split; [|exact Hd].
  apply in_or_app. right. now left.
Qed.

Lemma some_reason_without_null (ds : list json) :
  ~ In JNull ds -> some_reason ds = Some (existsb reason_is_invalid_key ds).
Proof.
  induction ds as [|d ds IH]; intros Hn; [reflexivity|].
  assert (Hd : d <> JNull) by (intros ->; apply Hn; now left).
  assert (Hds : ~ In JNull ds) by (intros Hin; apply Hn; now right).
  rewrite (some_reason_cons d ds Hd). cbn [existsb].
  destruct (reason_is_invalid_key d); [reflexivity | now apply IH].
Qed.

Lemma envelope_unfold (msg : jsstring) :
  envelope_reports_invalid_key msg = true <->
  exists parsed ds,
    JSON_parse msg = Some parsed /\
    opt_get (opt_get (Some parsed) (lit "error")) (lit "details")
      = Some (JArray ds) /\
    existsb reason_is_invalid_key ds = true.
Proof.
  unfold envelope_reports_invalid_key. split.
  - destruct (JSON_parse msg) as [[| | | | |top]|]; try discriminate.
    destruct (lookup (lit "error") top) as [[| | | | |err]|] eqn:E1;
      try discriminate.
    destruct (lookup (lit "details") err) as [[| | | |ds|]|] eqn:E2;
      try discriminate.
    intros H. exists (JObject top), ds. repeat split.
    + apply details_chain. now exists top, err.
    + erewrite existsb_same; [exact H|].
      intros d. apply reason_is_invalid_key_object.
  - intros (parsed & ds & -> & Hd & H).
    apply details_chain in Hd as (top & err & -> & -> & ->).
    erewrite existsb_same; [exact H|].
    intros d. symmetry. apply reason_is_invalid_key_object.
Qed.

(** The probe only fires on envelopes that report the invalid key ... *)
Lemma probe_sound (msg : jsstring) :
  probe msg = true -> envelope_reports_invalid_key msg = true.
Proof.
  unfold probe. intros H. apply envelope_unfold.
  destruct (JSON_parse msg) as [parsed|]; [|discriminate].
  destruct (opt_get (opt_get (Some parsed) (lit "error")) (lit "details"))
    as [[| | | |ds|]|] eqn:E; try discriminate.
  exists parsed, ds. repeat split; [exact E|].
  apply some_reason_exists. destruct (some_reason ds) as [[|]|]; congruence.
Qed.

(** ... and on all of them whose [details] hold no [null]. *)
Lemma probe_complete_without_null (msg : jsstring) :
  (forall parsed ds,
     JSON_parse msg = Some parsed ->
     opt_get (opt_get (Some parsed) (lit "error")) (lit "details")
       = Some (JArray ds) ->
     ~ In JNull ds) ->
  envelope_reports_invalid_key msg = true -> probe msg = true.
Proof.
  intros Hnull H. apply envelope_unfold in H as (parsed & ds & Hp & Hd & H).
  unfold probe. rewrite Hp, Hd.
  rewrite (some_reason_without_null ds (Hnull _ _ Hp Hd)). exact H.
Qed.

(** The classification of an [Error] that is not a ConfigurationError, for
    messages whose [error.details], if any, hold no [null] entry: the
    ConfigurationError exactly for the two phrases and for the envelopes
    that report the invalid key, the GenericFailure otherwise. *)
Lemma handleError_classification_without_null (e : JsError) (context : jsstring) :
  startsWith (message e) CONFIG_PREFIX = false ->
  (forall parsed ds,
     JSON_parse (message e) = Some parsed ->
     opt_get (opt_get (Some parsed) (lit "error")) (lit "details")
       = Some (JArray ds) ->
     ~ In JNull ds) ->
  (handleError (ErrorObject e) context = Throw ConfigurationError <->
     includes (message e) (lit "API key not valid") = true \/
     includes (message e) API_KEY_INVALID = true \/
     envelope_reports_invalid_key (message e) = true) /\
  (handleError (ErrorObject e) context <> Throw ConfigurationError ->
     handleError (ErrorObject e) context
       = Throw (GenericFailure context (message e))).
Proof.
  intros Hprefix Hnull. rewrite (handleError_classified e context Hprefix).
  assert (Hyes : forall P : Prop, P ->
            (Throw (A:=unit) ConfigurationError = Throw ConfigurationError <-> P) /\
            (Throw (A:=unit) ConfigurationError <> Throw ConfigurationError ->
             Throw (A:=unit) ConfigurationError
               = Throw (GenericFailure context (message e)))).
  { intros P HP. split; [split; auto | intros H; now exfalso]. }
  destruct (includes (message e) (lit "API key not valid")) eqn:E1;
    cbn [orb]; [apply Hyes; auto|].
  destruct (includes (message e) API_KEY_INVALID) eqn:E2;
    cbn [orb]; [apply Hyes; auto|].
  destruct (probe (message e)) eqn:P.
  - apply Hyes. right. right. now apply probe_sound.
  - split; [|reflexivity]. split.
    + intros H. exfalso.
      apply (generic_is_not_configuration context (message e)). congruence.
    + intros [H | [H | H]]; try discriminate.
      apply (probe_complete_without_null _ Hnull) in H. congruence.
Qed.

(** A reported invalid key is a string value of the parsed message. *)
Lemma envelope_occurs (msg : jsstring) :
  envelope_reports_invalid_key msg = true ->
  exists parsed, JSON_parse msg = Some parsed /\ occurs API_KEY_INVALID parsed.
Proof.
  intros H. apply envelope_unfold in H as (parsed & ds & Hp & Hd & H).
  exists parsed. split; [exact Hp|].
  apply details_chain in Hd as (top & err & -> & E1 & E2).
  apply existsb_exists in H as (d & Hin & Hd).
  rewrite reason_is_invalid_key_object in Hd.
  destruct d as [| | | | |entry]; try discriminate.
  destruct (lookup (lit "reason") entry) as [[| | |s| |]|] eqn:E3;
    try discriminate.
  apply str_eqb_eq in Hd. subst s.
  apply lookup_In in E1, E2, E3.
  eapply occurs_member; [exact E1|].
  eapply occurs_member; [exact E2|].
  eapply occurs_element; [exact Hin|].
  eapply occurs_member; [exact E3|].
  constructor.
Qed.

(** Without escapes in the message, the reported key is in its text. *)
Lemma envelope_plain_includes (msg : jsstring) :
  plain msg -> envelope_reports_invalid_key msg = true ->
  includes msg API_KEY_INVALID = true.
Proof.
  intros Hp H. apply envelope_occurs in H as (parsed & Hparse & Hocc).
  apply includes_infix. eapply JSON_parse_plain; eassumption.
Qed.

(** C1 (defect): the claim makes [handleError] raise a ConfigurationError
    whenever the message parses as an envelope whose [error.details] holds
    an entry with reason [API_KEY_INVALID].  On this message it does hold
    one, after a [null] entry; reading [reason] off the [null] entry throws
    inside the [try], the empty [catch] swallows that too, and
    [handleError] raises the GenericFailure instead. *)
Theorem handleError_null_entry_hides_invalid_key :
  startsWith null_then_key CONFIG_PREFIX = false /\
  envelope_reports_invalid_key null_then_key = true /\
  handleError (ErrorObject (new_Error null_then_key)) (lit "generate text")
    = Throw (GenericFailure (lit "generate text") null_then_key).
Proof. vm_compute. repeat split. Qed.

(** C8: an error whose message starts with the configuration prefix is
    re-raised as the very same error, not as a GenericFailure wrapping it
    (and feeding the result back in changes nothing); and for every input
    whatsoever [handleError] raises: it never returns normally. *)
Theorem handleError_passthrough_and_never_returns
    (e : JsError) (error : thrown) (context : jsstring) :
  (startsWith (message e) CONFIG_PREFIX = true ->
     handleError (ErrorObject e) context = Throw (ErrorObject e) /\
     handleError (ErrorObject e) context
       <> Throw (GenericFailure context (message e)) /\
     (forall context', handleError (ErrorObject e) context'
                         = Throw (ErrorObject e))) /\
  (exists t, handleError error context = Throw t) /\
  handleError error context <> Return tt.
Proof.
  split; [|split].
  - intros H. rewrite (handleError_passthrough e context H).
    split; [reflexivity|]. split.
    + intros Heq. injection Heq as Heq. rewrite Heq in H.
      unfold new_Error, genericMessage in H. cbn [message] in H.
      vm_compute in H. discriminate.
    + intros context'. now apply handleError_passthrough.
  - apply handleError_throws.
  - destruct (handleError_throws error context) as [t ->]. discriminate.
Qed.

Lemma handleError_passthrough_and_never_returns_witness :
  handleError ConfigurationError (lit "edit image") = Throw ConfigurationError /\
  (exists t, handleError (NonError JNull) (lit "edit image") = Throw t).
Proof.
  pose proof (handleError_passthrough_and_never_returns
                (new_Error CONFIG_MESSAGE) (NonError JNull) (lit "edit image"))
    as [H1 [H2 _]].
  split; [|exact H2].
  apply H1. vm_compute. reflexivity.
Defined.

(** C9 (as stated, refuted): this message parses to an envelope whose
    [error.details] holds an entry with reason [API_KEY_INVALID], the key
    with the underscore written as the escape u005f; the text does not contain
    [API_KEY_INVALID], and removing the probe changes the error raised. *)
Lemma probe_not_redundant :
  envelope_reports_invalid_key escaped_key = true /\
  includes escaped_key API_KEY_INVALID = false /\
  handleError_without_probe (ErrorObject (new_Error escaped_key)) (lit "generate text")
    <> handleError (ErrorObject (new_Error escaped_key)) (lit "generate text").
Proof.
  split; [vm_compute; reflexivity|]. split; [vm_compute; reflexivity|].
  vm_compute. discriminate.
Qed.

(** C9 (amended): for every Error whose message has no backslash, so that
    no string literal in it is written with an escape, an envelope that
    reports the invalid key contains [API_KEY_INVALID] in its text, and the
    classifier without the probe raises what the classifier raises. *)
Theorem probe_redundant_without_escapes (e : JsError) (context : jsstring) :
  plain (message e) ->
  (envelope_reports_invalid_key (message e) = true ->
     includes (message e) API_KEY_INVALID = true) /\
  handleError_without_probe (ErrorObject e) context
    = handleError (ErrorObject e) context.
Proof.
  intros Hp. split; [now apply envelope_plain_includes|].
  unfold handleError_without_probe, handleError.
  destruct (startsWith (message e) CONFIG_PREFIX); [reflexivity|].
  destruct (includes (message e) (lit "API key not valid")); [reflexivity|].
  destruct (includes (message e) API_KEY_INVALID) eqn:E; [reflexivity|].
  cbn [orb]. destruct (probe (message e)) eqn:P; [|reflexivity].
  apply probe_sound, (envelope_plain_includes _ Hp) in P. congruence.
Qed.

Lemma probe_redundant_without_escapes_witness :
  includes plain_key API_KEY_INVALID = true /\
  handleError_without_probe (ErrorObject (new_Error plain_key))
    (lit "generate text")
  = handleError (ErrorObject (new_Error plain_key)) (lit "generate text").
Proof.
  assert (Hplain : plain (message (new_Error plain_key)))
    by (unfold plain; vm_compute; intuition discriminate).
  destruct (probe_redundant_without_escapes (new_Error plain_key)
              (lit "generate text") Hplain) as [H1 H2].
  split; [apply H1; vm_compute; reflexivity | exact H2].
Defined.

End ClassifierFacts.
Export ClassifierFacts.

(* ===================================================================== *)
(** ** The operations *)
(* ===================================================================== *)

Module OperationFacts.

Local Open Scope js_scope.

(** *** The client accessor *)

Lemma client_of_None (w : World) :
  client_of w = None <->
  aiInstance w = None /\ (API_KEY w = None \/ API_KEY w = Some []).
Proof.
  unfold client_of. destruct (aiInstance w).
  - split; [discriminate | intros [H _]; discriminate].
  - destruct (API_KEY w) as [[|c k]|].
    + split; auto.
    + split; [discriminate | intros [_ [H|H]]; discriminate].
    + split; auto.
Qed.

Lemma getAiInstance_ready (w : World) (ai : GoogleGenAI) :
  client_of w = Some ai -> getAiInstance w = (Return ai, with_client ai w).
Proof.
  unfold client_of, getAiInstance, with_client.
  destruct w as [inst key log]. cbn [aiInstance API_KEY calls].
  destruct inst as [ai'|].
  - intros H. injection H as ->. reflexivity.
  - destruct key as [[|c k]|]; try discriminate.
    intros H. injection H as <-. reflexivity.
Qed.

Lemma getAiInstance_missing (w : World) :
  client_of w = None -> getAiInstance w = (Throw ConfigurationError, w).
Proof.
  intros H. apply client_of_None in H as [Hi Hk].
  unfold getAiInstance. rewrite Hi.
  destruct Hk as [-> | ->]; reflexivity.
Qed.

(** A memoized client is handed out again, and the world stays as it is. *)
Lemma getAiInstance_memoized (w : World) (ai : GoogleGenAI) :
  aiInstance w = Some ai -> getAiInstance w = (Return ai, w).
Proof. intros H. unfold getAiInstance. now rewrite H. Qed.

(** *** What each operation does, step by step *)

Ltac run_with H :=
  cbv [try_catch bind await_generateContent await_generateImages
       fileToGenerativePart record_call settle ret throw];
  rewrite H; cbv beta iota zeta.

Lemma generateImage_run (host : Host) (prompt : jsstring) (n : option Z)
    (w : World) :
  generateImage host prompt n w =
    match client_of w with
    | None => (Throw ConfigurationError, w)
    | Some ai =>
        let call := imageRequest prompt n in
        (match generateImages host ai call with
         | Return response =>
             match generatedImages response with
             | Some ((_ :: _) as images) =>
                 Return (Some (map (fun img => lit "data:image/jpeg;base64,"
                                                ++ imageBytes img) images))
             | _ => caught (handleError
                              (ErrorObject
                                 (new_Error (lit "No images were generated.")))
                              (lit "generate image"))
             end
         | Throw t => caught (handleError t (lit "generate image"))
         end,
         logged (GenerateImages ai call) (with_client ai w))
    end.
Proof.
  unfold generateImage. destruct (client_of w) as [ai|] eqn:Hc.
  - run_with (getAiInstance_ready w ai Hc).
    destruct (generateImages host ai (imageRequest prompt n)) as [response|t];
      [|reflexivity].
    destruct (generatedImages response) as [[|img images]|]; reflexivity.
  - run_with (getAiInstance_missing w Hc).
    now rewrite handleError_ConfigurationError.
Qed.

Lemma generateStructuredText_run (host : Host) (prompt : jsstring)
    (schema : Schema) (w : World) :
  generateStructuredText host prompt schema w =
    match client_of w with
    | None => (Throw ConfigurationError, w)
    | Some ai =>
        let call := structuredRequest prompt schema in
        (match generateContent host ai call with
         | Return response =>
             let jsonString := trim (response_text response) in
             match JSON_parse jsonString with
             | Some v => Return (Some v)
             | None =>
                 caught (handleError
                           (ErrorObject
                              {| name := lit "SyntaxError";
                                 message := syntaxErrorMessage host jsonString |})
                           (lit "generate structured text"))
             end
         | Throw t => caught (handleError t (lit "generate structured text"))
         end,
         logged (GenerateContent ai call) (with_client ai w))
    end.
Proof.
  unfold generateStructuredText. destruct (client_of w) as [ai|] eqn:Hc.
  - run_with (getAiInstance_ready w ai Hc).
    destruct (generateContent host ai (structuredRequest prompt schema))
      as [response|t]; [|reflexivity].
    unfold JSON_parse_or_throw, ret, throw.
    destruct (JSON_parse (trim (response_text response))); reflexivity.
  - run_with (getAiInstance_missing w Hc).
    now rewrite handleError_ConfigurationError.
Qed.

Lemma generateText_run (host : Host) (prompt : jsstring) (w : World) :
  generateText host prompt w =
    match client_of w with
    | None => (Throw ConfigurationError, w)
    | Some ai =>
        let call := textRequest prompt in
        (match generateContent host ai call with
         | Return response => Return (Some (response_text response))
         | Throw t => caught (handleError t (lit "generate text"))
         end,
         logged (GenerateContent ai call) (with_client ai w))
    end.
Proof.
  unfold generateText. destruct (client_of w) as [ai|] eqn:Hc.
  - run_with (getAiInstance_ready w ai Hc).
    destruct (generateContent host ai (textRequest prompt)); reflexivity.
  - run_with (getAiInstance_missing w Hc).
    now rewrite handleError_ConfigurationError.
Qed.

Lemma generateTextWithImage_run (host : Host) (prompt : jsstring)
    (image : File) (isJson : option bool) (w : World) :
  generateTextWithImage host prompt image isJson w =
    match client_of w with
    | None => (Throw ConfigurationError, w)
    | Some ai =>
        let json := match isJson with Some b => b | None => false end in
        let call := textWithImageRequest prompt (generativePart image) json in
        (match generateContent host ai call with
         | Return response =>
             let textResponse := response_text response in
             if json then
               match JSON_parse textResponse with
               | Some v => Return (Some v)
               | None =>
                   Return (Some (JObject [(lit "rawResponse",
                                           JString textResponse)]))
               end
             else Return (Some (JString textResponse))
         | Throw t => caught (handleError t (lit "generate text with image"))
         end,
         logged (GenerateContent ai call) (with_client ai w))
    end.
Proof.
  unfold generateTextWithImage. destruct (client_of w) as [ai|] eqn:Hc.
  - run_with (getAiInstance_ready w ai Hc).
    destruct (generateContent host ai _) as [response|t]; [|reflexivity].
    destruct (match isJson with Some b => b | None => false end);
      [|reflexivity].
    destruct (JSON_parse (response_text response)); reflexivity.
  - run_with (getAiInstance_missing w Hc).
    now rewrite handleError_ConfigurationError.
Qed.

Lemma editImage_run (host : Host) (prompt : jsstring) (image : File)
    (w : World) :
  editImage host prompt image w =
    match client_of w with
    | None => (Throw ConfigurationError, w)
    | Some ai =>
        let call := editRequest prompt (generativePart image) in
        (match generateContent host ai call with
         | Return response =>
             let (resultText, resultImage) :=
               scan_parts (response_parts response) in
             if falsy resultImage
             then caught (handleError
                            (ErrorObject
                               (new_Error
                                  (lit "The AI did not return an edited image.")))
                            (lit "edit image"))
             else Return (Some {| edit_text := resultText;
                                  edit_image := resultImage |})
         | Throw t => caught (handleError t (lit "edit image"))
         end,
         logged (GenerateContent ai call) (with_client ai w))
    end.
Proof.
  unfold editImage. destruct (client_of w) as [ai|] eqn:Hc.
  - run_with (getAiInstance_ready w ai Hc).
    destruct (generateContent host ai _) as [response|t]; [|reflexivity].
    destruct (scan_parts (response_parts response)) as [resultText resultImage].
    destruct (falsy resultImage); reflexivity.
  - run_with (getAiInstance_missing w Hc).
    now rewrite handleError_ConfigurationError.
Qed.

Lemma generateColorPalette_run (host : Host) (theme : jsstring) (w : World) :
  generateColorPalette host theme w =
    let inner := generateStructuredText host (palettePrompt theme)
                   paletteSchema w in
    let context := lit "generate color palette" in
    (match fst inner with
     | Return None =>
         caught (handleError
                   (ErrorObject
                      {| name := lit "TypeError";
                         message := typeErrorMessage host None (lit "palette") |})
                   context)
     | Return (Some JNull) =>
         caught (handleError
                   (ErrorObject
                      {| name := lit "TypeError";
                         message := typeErrorMessage host (Some JNull)
                                      (lit "palette") |})
                   context)
     | Return (Some v) =>
         match get v (lit "palette") with
         | Some (JArray colors) => Return (Some colors)
         | _ => caught (handleError
                          (ErrorObject
                             (new_Error
                                (lit "Invalid response format from API.")))
                          context)
         end
     | Throw t => caught (handleError t context)
     end,
     snd inner).
Proof.
  unfold generateColorPalette.
  cbv [try_catch bind read_palette ret throw]. cbv beta iota zeta.
  destruct (generateStructuredText host (palettePrompt theme) paletteSchema w)
    as [[[v|]|t] w']; cbn [fst snd]; try reflexivity.
  destruct v as [| | | | |members]; try reflexivity.
  cbn [get]. destruct (lookup (lit "palette") members) as [[| | | | |]|];
    reflexivity.
Qed.

(** The [catch] block of an operation always settles it with an error. *)
Lemma caught_handleError {A} (error : thrown) (context : jsstring) :
  exists t, @caught A (handleError error context) = Throw t.
Proof.
  destruct (handleError_throws error context) as [t ->]. now exists t.
Qed.

Lemma caught_not_Return {A} (error : thrown) (context : jsstring) (r : option A) :
  caught (handleError error context) <> Return r.
Proof.
  destruct (@caught_handleError A error context) as [t ->]. discriminate.
Qed.


Lemma no_edited_image_classified :
  handleError
    (ErrorObject (new_Error (lit "The AI did not return an edited image.")))
    (lit "edit image")
  = Throw (GenericFailure (lit "edit image")
                          (lit "The AI did not return an edited image.")).
Proof. vm_compute. reflexivity. Qed.

(** *** The loop of [editImage] *)

Lemma scan_parts_snoc (parts : list Part) (p : Part) :
  scan_parts (parts ++ [p]) = scan_part (scan_parts parts) p.
Proof. unfold scan_parts. now rewrite fold_left_app. Qed.

(** What the loop leaves in [(resultText, resultImage)]. *)
Lemma scan_parts_last (parts : list Part) :
  scan_parts parts =
    (last_nonempty_text parts, option_map dataUri (last_image_only parts)).
Proof.
  induction parts as [|p parts IH] using rev_ind; [reflexivity|].
  rewrite scan_parts_snoc, IH.
  unfold last_nonempty_text, last_image_only, scan_part.
  rewrite rev_app_distr. cbn [rev app find].
  unfold has_nonempty_text, is_image_only, has_inline_data.
  destruct (falsy (text p)); cbn [negb andb]; [|reflexivity].
  destruct (inlineData p) eqn:E; cbv beta iota; rewrite ?E; reflexivity.
Qed.

Lemma dataUri_truthy (d : InlineData) : falsy (Some (dataUri d)) = false.
Proof. reflexivity. Qed.

(** [editImage], once the response is in. *)
Lemma editImage_unwrap
    (host : Host) (prompt : jsstring) (image : File) (w : World)
    (ai : GoogleGenAI) (response : GenerateContentResponse) :
  client_of w = Some ai ->
  generateContent host ai (editRequest prompt (generativePart image))
    = Return response ->
  fst (editImage host prompt image w) =
    match last_image_only (response_parts response) with
    | Some d =>
        Return (Some {| edit_text := last_nonempty_text (response_parts response);
                        edit_image := Some (dataUri d) |})
    | None =>
        Throw (GenericFailure (lit "edit image")
                 (lit "The AI did not return an edited image."))
    end.
Proof.
  intros Hc Hr. rewrite editImage_run, Hc. cbn [fst]. cbv zeta.
  rewrite Hr, scan_parts_last.
  destruct (last_image_only (response_parts response)) as [d|];
    cbn [option_map].
  - rewrite dataUri_truthy. reflexivity.
  - cbn [falsy]. now rewrite no_edited_image_classified.
Qed.

End OperationFacts.
Export OperationFacts.

(* ===================================================================== *)
(** ** What the operations promise *)
(* ===================================================================== *)

Module Claims.

(** C2: with no client handle yet and the credential absent or the empty
    string, every exported operation raises the ConfigurationError with the
    fixed message and leaves the world as it found it: no handle is
    memoized and no remote call is logged. *)
Theorem missing_credential_fails_fast
    (host : Host) (w : World) (prompt theme : jsstring) (n : option Z)
    (schema : Schema) (image : File) (isJson : option bool) :
  aiInstance w = None ->
  API_KEY w = None \/ API_KEY w = Some [] ->
  generateImage host prompt n w = (Throw ConfigurationError, w) /\
  generateStructuredText host prompt schema w = (Throw ConfigurationError, w) /\
  generateText host prompt w = (Throw ConfigurationError, w) /\
  generateTextWithImage host prompt image isJson w
    = (Throw ConfigurationError, w) /\
  editImage host prompt image w = (Throw ConfigurationError, w) /\
  generateColorPalette host theme w = (Throw ConfigurationError, w).
Proof.
  intros Hi Hk.
  assert (Hc : client_of w = None) by (apply client_of_None; auto).
  repeat split.
  - now rewrite generateImage_run, Hc.
  - now rewrite generateStructuredText_run, Hc.
  - now rewrite generateText_run, Hc.
  - now rewrite generateTextWithImage_run, Hc.
  - now rewrite editImage_run, Hc.
  - rewrite generateColorPalette_run, generateStructuredText_run, Hc.
    cbn [fst snd]. now rewrite handleError_ConfigurationError.
Qed.

Lemma missing_credential_fails_fast_witness :
  generateText (text_host (lit "hello")) (lit "hi") unconfigured
    = (Throw ConfigurationError, unconfigured) /\
  calls unconfigured = [] /\ aiInstance unconfigured = None.
Proof.
  split; [|split; reflexivity].
  refine (proj1 (proj2 (proj2
    (missing_credential_fails_fast (text_host (lit "hello")) unconfigured
       (lit "hi") (lit "sunset") None paletteSchema photo None _ _)))).
  - reflexivity.
  - left. reflexivity.
Defined.

(** C3 (as stated, refuted): in this response the last part that carries
    inline data is the second one, which also carries a caption, and the
    last part that carries a text field is the third one, whose text is the
    empty string.  [editImage] resolves with the first part's image and the
    second part's caption. *)
Lemma editImage_keeps_neither_last_part :
  last_text_part mixedParts = Some [] /\
  last_inline_data_part mixedParts = Some pictureB /\
  fst (editImage (parts_host mixedParts) (lit "brighten") photo configured)
    = Return (Some {| edit_text := Some (lit "caption");
                      edit_image := Some (dataUri pictureA) |}) /\
  dataUri pictureA <> dataUri pictureB /\
  Some (lit "caption") <> Some (@nil N).
Proof.
  split; [reflexivity|]. split; [reflexivity|].
  split; [vm_compute; reflexivity|].
  split; [vm_compute; discriminate | discriminate].
Qed.

(** C3 (amended): for every part list of an [editImage] response, the text
    of the result is the text of the last part whose text is a non-empty
    string (null if there is none) and the image is the data URI of the last
    part that has inline data and no non-empty text; later such parts
    overwrite earlier ones.  If no part is of the second kind, [editImage]
    raises the GenericFailure saying that no edited image was returned. *)
Theorem editImage_last_write_wins
    (host : Host) (prompt : jsstring) (image : File) (w : World)
    (ai : GoogleGenAI) (response : GenerateContentResponse) :
  client_of w = Some ai ->
  generateContent host ai (editRequest prompt (generativePart image))
    = Return response ->
  fst (editImage host prompt image w) =
    match last_image_only (response_parts response) with
    | Some d =>
        Return (Some {| edit_text := last_nonempty_text (response_parts response);
                        edit_image := Some (dataUri d) |})
    | None =>
        Throw (GenericFailure (lit "edit image")
                 (lit "The AI did not return an edited image."))
    end.
Proof. apply editImage_unwrap. Qed.

Lemma editImage_last_write_wins_witness :
  fst (editImage (parts_host textImageTextImage) (lit "brighten") photo
         configured)
    = Return (Some {| edit_text := Some (lit "after");
                      edit_image := Some (dataUri pictureB) |}).
Proof.
  refine (editImage_last_write_wins (parts_host textImageTextImage)
            (lit "brighten") photo configured
            {| apiKey := lit "secret" |}
            {| response_text := []; response_parts := textImageTextImage |}
            _ _); vm_compute; reflexivity.
Defined.

(** C4 (as stated, refuted): the service answers with an empty palette and
    [generateColorPalette] resolves with it: no entries, not five. *)
Lemma generateColorPalette_resolves_with_empty_palette :
  fst (generateColorPalette (text_host emptyPaletteText) (lit "sunset")
         configured)
    = Return (Some []) /\
  List.length (@nil json) <> 5%nat.
Proof. split; [vm_compute; reflexivity | discriminate]. Qed.

(** C4 (amended): whenever [generateColorPalette] resolves, it resolves
    with the [palette] array of the decoded response, as the service sent
    it: an ordered sequence of entries whose number and shape are not
    checked. *)
Theorem generateColorPalette_returns_palette_as_sent
    (host : Host) (theme : jsstring) (w : World) (result : option (list json)) :
  fst (generateColorPalette host theme w) = Return result ->
  exists ai response parsed colors,
    result = Some colors /\
    client_of w = Some ai /\
    generateContent host ai
      (structuredRequest (palettePrompt theme) paletteSchema) = Return response /\
    JSON_parse (trim (response_text response)) = Some parsed /\
    get parsed (lit "palette") = Some (JArray colors).
Proof.
  rewrite generateColorPalette_run, generateStructuredText_run. cbv zeta.
  destruct (client_of w) as [ai|]; cbn [fst].
  2:{ intros H. now apply caught_not_Return in H. }
  destruct (generateContent host ai _) as [response|t] eqn:Hr.
  2:{ destruct (@caught_handleError json t (lit "generate structured text"))
        as [t' ->].
      intros H. now apply caught_not_Return in H. }
  destruct (JSON_parse (trim (response_text response))) as [parsed|] eqn:Hp.
  2:{ match goal with
      | |- context [@caught json (handleError ?e ?c)] =>
          destruct (@caught_handleError json e c) as [t' ->]
      end.
      intros H. now apply caught_not_Return in H. }
  intros H.
  assert (Hget : exists colors,
             result = Some colors /\
             get parsed (lit "palette") = Some (JArray colors)).
  { destruct parsed as [| | | | |members];
      try (now apply caught_not_Return in H).
    destruct (get (JObject members) (lit "palette")) as [[| | | |colors|]|];
      try (now apply caught_not_Return in H).
    injection H as <-. now exists colors. }
  destruct Hget as (colors & -> & Hget).
  exists ai, response, parsed, colors. repeat split; auto.
Qed.

Lemma generateColorPalette_returns_palette_as_sent_witness :
  exists ai response parsed colors,
    Some (@nil json) = Some colors /\
    client_of configured = Some ai /\
    generateContent (text_host emptyPaletteText) ai
      (structuredRequest (palettePrompt (lit "sunset")) paletteSchema)
      = Return response /\
    JSON_parse (trim (response_text response)) = Some parsed /\
    get parsed (lit "palette") = Some (JArray colors).
Proof.
  apply (generateColorPalette_returns_palette_as_sent
           (text_host emptyPaletteText) (lit "sunset") configured (Some [])).
  vm_compute. reflexivity.
Defined.




(** C6: with [isJson] true, [generateTextWithImage] resolves with the parsed
    JSON value when the response text parses, and with the fallback object
    [{rawResponse: text}] when it does not; it does not raise. *)
Theorem generateTextWithImage_lenient_json
    (host : Host) (prompt : jsstring) (image : File) (w : World)
    (ai : GoogleGenAI) (response : GenerateContentResponse) :
  client_of w = Some ai ->
  generateContent host ai
    (textWithImageRequest prompt (generativePart image) true) = Return response ->
  fst (generateTextWithImage host prompt image (Some true) w) =
    match JSON_parse (response_text response) with
    | Some v => Return (Some v)
    | None =>
        Return (Some (JObject [(lit "rawResponse",
                                JString (response_text response))]))
    end.
Proof.
  intros Hc Hr. rewrite generateTextWithImage_run, Hc. cbn [fst]. cbv zeta.
  rewrite Hr. destruct (JSON_parse (response_text response)); reflexivity.
Qed.

Lemma generateTextWithImage_lenient_json_witness :
  fst (generateTextWithImage (text_host (lit "a red barn")) (lit "describe")
         photo (Some true) configured)
    = Return (Some (JObject [(lit "rawResponse", JString (lit "a red barn"))])).
Proof.
  refine (generateTextWithImage_lenient_json (text_host (lit "a red barn"))
            (lit "describe") photo configured
            {| apiKey := lit "secret" |}
            {| response_text := lit "a red barn"; response_parts := [] |}
            _ _); vm_compute; reflexivity.
Defined.



(** C10 (as stated, refuted): this part carries a text field, the empty
    string, and inline data; the loop takes the inline-data branch for it,
    and [editImage] resolves with its image instead of raising. *)
Lemma editImage_empty_text_part_sets_image :
  has_text_field emptyTextWithImage = true /\
  has_inline_data emptyTextWithImage = true /\
  scan_part (None, None) emptyTextWithImage = (None, Some (dataUri pictureA)) /\
  fst (editImage (parts_host [emptyTextWithImage]) (lit "brighten") photo
         configured)
    = Return (Some {| edit_text := None;
                      edit_image := Some (dataUri pictureA) |}).
Proof.
  split; [reflexivity|]. split; [reflexivity|]. split; [reflexivity|].
  vm_compute. reflexivity.
Qed.

(** C10 (amended): a part that carries a non-empty text and inline data
    contributes only its text: the loop sets the result text to it and
    leaves the result image as it was.  Consequently, when every part with
    inline data also has a non-empty text, [editImage] raises the
    GenericFailure saying that no edited image was returned. *)
Theorem text_branch_takes_precedence
    (host : Host) (prompt : jsstring) (image : File) (w : World)
    (ai : GoogleGenAI) (response : GenerateContentResponse)
    (resultText resultImage : option jsstring) (part : Part) :
  (has_nonempty_text part = true ->
   scan_part (resultText, resultImage) part = (text part, resultImage)) /\
  (client_of w = Some ai ->
   generateContent host ai (editRequest prompt (generativePart image))
     = Return response ->
   (forall p, In p (response_parts response) ->
      has_inline_data p = true -> has_nonempty_text p = true) ->
   fst (editImage host prompt image w)
     = Throw (GenericFailure (lit "edit image")
                (lit "The AI did not return an edited image."))).
Proof.
  split.
  - unfold has_nonempty_text, scan_part. now intros ->.
  - intros Hc Hr Hall.
    rewrite (editImage_unwrap host prompt image w ai response Hc Hr).
    assert (Hnone : last_image_only (response_parts response) = None).
    { unfold last_image_only.
      destruct (find is_image_only (rev (response_parts response)))
        as [p|] eqn:E; [|reflexivity].
      apply find_some in E as [Hin Hp]. apply in_rev in Hin.
      unfold is_image_only in Hp. apply andb_true_iff in Hp as [Hf Hd].
      specialize (Hall p Hin Hd). unfold has_nonempty_text in Hall.
      rewrite Hf in Hall. discriminate. }
    now rewrite Hnone.
Qed.

Lemma text_branch_takes_precedence_witness :
  scan_part (None, Some (dataUri pictureA)) captionedImage
    = (Some (lit "caption"), Some (dataUri pictureA)) /\
  fst (editImage (parts_host [captionedImage]) (lit "brighten") photo configured)
    = Throw (GenericFailure (lit "edit image")
               (lit "The AI did not return an edited image.")).
Proof.
  pose proof (text_branch_takes_precedence (parts_host [captionedImage])
                (lit "brighten") photo configured {| apiKey := lit "secret" |}
                {| response_text := []; response_parts := [captionedImage] |}
                None (Some (dataUri pictureA)) captionedImage) as [H1 H2].
  split.
  - apply H1. reflexivity.
  - apply H2; [vm_compute; reflexivity | vm_compute; reflexivity |].
    intros p [<- | []] _. reflexivity.
Defined.

End Claims.
Export Claims.

(* ===================================================================== *)
(** ** The exported surface as a whole: facts *)
(* ===================================================================== *)

Module GatewayFacts.

(** *** Shape of every outcome *)



Lemma resolved_fst {A} (f : A -> Resolution) (m : M (option A)) (w : World) :
  fst (resolved f m w) =
    match fst (m w) with
    | Return r => Return (option_map f r)
    | Throw t => Throw t
    end.
Proof. unfold resolved. destruct (m w) as [[r|t] w']; reflexivity. Qed.

Lemma resolved_snd {A} (f : A -> Resolution) (m : M (option A)) (w : World) :
  snd (resolved f m w) = snd (m w).
Proof. unfold resolved. destruct (m w) as [[r|t] w']; reflexivity. Qed.




(** *** The world after a call *)

Lemma invoke_world (host : Host) (op : Operation) (w : World) :
  snd (invoke host op w) =
    match client_of w with
    | None => w
    | Some ai => logged (call_of ai op) (with_client ai w)
    end.
Proof.
  destruct op; cbn [invoke call_of]; rewrite resolved_snd.
  - rewrite generateImage_run. now destruct (client_of w).
  - rewrite generateStructuredText_run. now destruct (client_of w).
  - rewrite generateText_run. now destruct (client_of w).
  - rewrite generateTextWithImage_run. now destruct (client_of w).
  - rewrite editImage_run. now destruct (client_of w).
  - rewrite generateColorPalette_run. cbv zeta. cbn [snd].
    rewrite generateStructuredText_run. now destruct (client_of w).
Qed.

Lemma client_of_after (ai : GoogleGenAI) (c : RemoteCall) (w : World) :
  client_of (logged c (with_client ai w)) = Some ai.
Proof. reflexivity. Qed.

Lemma invoke_all_world (host : Host) (ops : list Operation) :
  forall (w : World) (ai : GoogleGenAI),
    client_of w = Some ai ->
    snd (invoke_all host ops w) =
      {| aiInstance := Some ai;
         API_KEY := API_KEY w;
         calls := rev (map (call_of ai) ops) ++ calls w |}
    \/ ops = [].
Proof.
  induction ops as [|op ops IH]; intros w ai Hc; [now right|]. left.
  cbn [invoke_all].
  destruct (invoke host op w) as [r w'] eqn:E.
  assert (Hw : w' = logged (call_of ai op) (with_client ai w)).
  { pose proof (invoke_world host op w) as H. rewrite E, Hc in H. exact H. }
  destruct (invoke_all host ops w') as [rs w''] eqn:E'. cbn [snd].
  specialize (IH w' ai). rewrite E' in IH. cbn [snd] in IH.
  destruct IH as [IH | ->].
  - subst w'. apply client_of_after.
  - rewrite IH. subst w'. cbn [API_KEY calls logged with_client map rev].
    now rewrite <- app_assoc.
  - cbn [invoke_all] in E'. injection E' as _ <-. subst w'. reflexivity.
Qed.

Lemma invoke_all_length (host : Host) (ops : list Operation) :
  forall w, List.length (fst (invoke_all host ops w)) = List.length ops.
Proof.
  induction ops as [|op ops IH]; intros w; [reflexivity|].
  cbn [invoke_all]. destruct (invoke host op w) as [r w'].
  specialize (IH w'). destruct (invoke_all host ops w') as [rs w''].
  cbn [fst List.length] in *. now rewrite IH.
Qed.

(** X2: from a world in which a client can be had (a memoized handle, or a
    non-empty credential), any sequence of exported calls issues exactly one
    remote call per exported call, in order, whether each is fulfilled or
    rejected; every one of them goes through that one client, which is
    memoized afterwards; the configuration variable is left alone. *)
Theorem one_remote_call_each_through_one_client
    (host : Host) (ops : list Operation) (w : World) (ai : GoogleGenAI) :
  client_of w = Some ai ->
  ops <> [] ->
  let w' := snd (invoke_all host ops w) in
  calls w' = rev (map (call_of ai) ops) ++ calls w /\
  Forall (fun c => client_in c = ai) (rev (map (call_of ai) ops)) /\
  aiInstance w' = Some ai /\
  API_KEY w' = API_KEY w /\
  List.length (fst (invoke_all host ops w)) = List.length ops.
Proof.
  intros Hc Hne. cbv zeta.
  destruct (invoke_all_world host ops w ai Hc) as [-> | ->]; [|congruence].
  cbn [calls aiInstance API_KEY]. repeat split.
  - apply Forall_rev, Forall_map, Forall_forall. intros op _.
    destruct op; reflexivity.
  - apply invoke_all_length.
Qed.

Lemma one_remote_call_each_through_one_client_witness :
  calls (snd (invoke_all (rejecting_host (NonError JNull))
                [GenerateText (lit "a"); GenerateColorPalette (lit "sea")]
                configured))
  = [ GenerateContent {| apiKey := lit "secret" |}
        (structuredRequest (palettePrompt (lit "sea")) paletteSchema);
      GenerateContent {| apiKey := lit "secret" |} (textRequest (lit "a")) ].
Proof.
  refine (proj1 (one_remote_call_each_through_one_client
                   (rejecting_host (NonError JNull))
                   [GenerateText (lit "a"); GenerateColorPalette (lit "sea")]
                   configured {| apiKey := lit "secret" |} _ _)).
  - vm_compute. reflexivity.
  - discriminate.
Defined.

(** *** The credential once a handle exists *)

Lemma invoke_fst_by_client (host : Host) (op : Operation) (w1 w2 : World) :
  client_of w1 = client_of w2 ->
  fst (invoke host op w1) = fst (invoke host op w2).
Proof.
  intros H. destruct op; cbn [invoke]; rewrite !resolved_fst.
  - now rewrite !generateImage_run, H; destruct (client_of w2).
  - now rewrite !generateStructuredText_run, H; destruct (client_of w2).
  - now rewrite !generateText_run, H; destruct (client_of w2).
  - now rewrite !generateTextWithImage_run, H; destruct (client_of w2).
  - now rewrite !editImage_run, H; destruct (client_of w2).
  - rewrite !generateColorPalette_run. cbv zeta. cbn [fst].
    now rewrite !generateStructuredText_run, H; destruct (client_of w2).
Qed.

(** X3: once a client handle exists the credential is never read again:
    whatever the configuration variable is changed to, removed or emptied
    included, every exported function settles exactly as before, and the
    handle it leaves memoized is the old one. *)
Theorem credential_ignored_once_memoized
    (host : Host) (op : Operation) (w : World) (ai : GoogleGenAI)
    (key : option jsstring) :
  aiInstance w = Some ai ->
  fst (invoke host op (with_key key w)) = fst (invoke host op w) /\
  aiInstance (snd (invoke host op (with_key key w))) = Some ai.
Proof.
  intros Hi.
  assert (H1 : client_of w = Some ai) by (unfold client_of; now rewrite Hi).
  assert (H2 : client_of (with_key key w) = Some ai)
    by (unfold client_of, with_key; cbn [aiInstance]; now rewrite Hi).
  split.
  - apply invoke_fst_by_client. now rewrite H1, H2.
  - now rewrite invoke_world, H2.
Qed.

Lemma credential_ignored_once_memoized_witness :
  fst (invoke (text_host (lit "hello")) (GenerateText (lit "greet"))
         (with_key None (with_client {| apiKey := lit "secret" |} configured)))
  = fst (invoke (text_host (lit "hello")) (GenerateText (lit "greet"))
           (with_client {| apiKey := lit "secret" |} configured)).
Proof.
  refine (proj1 (credential_ignored_once_memoized (text_host (lit "hello"))
                   (GenerateText (lit "greet"))
                   (with_client {| apiKey := lit "secret" |} configured)
                   {| apiKey := lit "secret" |} None _)).
  reflexivity.
Defined.

(** *** Rejections of the remote call *)

Lemma caught_resolved {A} (f : A -> Resolution) (c : completion unit) :
  (exists t, c = Throw t) ->
  match @caught A c with
  | Return r => Return (option_map f r)
  | Throw t => Throw t
  end = @caught Resolution c.
Proof. intros [t ->]. reflexivity. Qed.

(** A rejected call of any function but [generateColorPalette] goes into
    [handleError] with the function's label. *)
Lemma invoke_rejected (host : Host) (op : Operation) (w : World)
    (ai : GoogleGenAI) (t : thrown) :
  is_palette op = false ->
  client_of w = Some ai ->
  rejection host (call_of ai op) = Some t ->
  fst (invoke host op w) = caught (handleError t (context_of op)).
Proof.
  intros Hp Hc Hr.
  destruct op; try discriminate;
    cbn [invoke call_of rejection context_of] in *; rewrite resolved_fst.
  - rewrite generateImage_run, Hc. cbv zeta. cbn [fst].
    destruct (generateImages host ai _); [discriminate|].
    injection Hr as ->. apply caught_resolved, handleError_throws.
  - rewrite generateStructuredText_run, Hc. cbv zeta. cbn [fst].
    destruct (generateContent host ai _); [discriminate|].
    injection Hr as ->. apply caught_resolved, handleError_throws.
  - rewrite generateText_run, Hc. cbv zeta. cbn [fst].
    destruct (generateContent host ai _); [discriminate|].
    injection Hr as ->. apply caught_resolved, handleError_throws.
  - rewrite generateTextWithImage_run, Hc. cbv zeta. cbn [fst].
    destruct (generateContent host ai _); [discriminate|].
    injection Hr as ->. apply caught_resolved, handleError_throws.
  - rewrite editImage_run, Hc. cbv zeta. cbn [fst].
    destruct (generateContent host ai _); [discriminate|].
    injection Hr as ->. apply caught_resolved, handleError_throws.
Qed.

(** In [generateColorPalette] it goes through [handleError] twice: with the
    label of [generateStructuredText], then with its own. *)
Lemma palette_rejected (host : Host) (theme : jsstring) (w : World)
    (ai : GoogleGenAI) (t : thrown) :
  client_of w = Some ai ->
  rejection host (call_of ai (GenerateColorPalette theme)) = Some t ->
  exists t1,
    handleError t (lit "generate structured text") = Throw t1 /\
    fst (invoke host (GenerateColorPalette theme) w)
      = caught (handleError t1 (lit "generate color palette")).
Proof.
  intros Hc Hr. cbn [invoke call_of rejection] in *. rewrite resolved_fst.
  rewrite generateColorPalette_run. cbv zeta. cbn [fst].
  rewrite generateStructuredText_run, Hc. cbv zeta. cbn [fst].
  destruct (generateContent host ai _); [discriminate|]. injection Hr as ->.
  destruct (handleError_throws t (lit "generate structured text")) as [t1 H1].
  exists t1. split; [exact H1|]. rewrite H1. cbn [caught].
  apply caught_resolved, handleError_throws.
Qed.

Lemma failed_text_is_not_JSON (rest : jsstring) : JSON_parse (70 :: rest) = None.
Proof. reflexivity. Qed.

Lemma unknown_text_is_not_JSON (rest : jsstring) : JSON_parse (65 :: rest) = None.
Proof. reflexivity. Qed.

(** The label and the words [handleError] puts before a message bring in
    none of the phrases it looks for. *)
Lemma structured_label_adds_no_phrase (m phrase : jsstring) :
  phrase = lit "API key not valid" \/ phrase = API_KEY_INVALID ->
  includes (genericMessage (lit "generate structured text") m) phrase
    = includes m phrase.
Proof. intros [-> | ->]; reflexivity. Qed.

(** [handleError] on a GenericFailure of [generateStructuredText]. *)
Lemma structured_failure_wrapped_again (m context : jsstring) :
  includes m (lit "API key not valid") = false ->
  includes m API_KEY_INVALID = false ->
  handleError (GenericFailure (lit "generate structured text") m) context
    = Throw (GenericFailure context
               (genericMessage (lit "generate structured text") m)).
Proof.
  intros H1 H2. unfold GenericFailure. rewrite handleError_classified.
  - cbn [message new_Error].
    rewrite !structured_label_adds_no_phrase, H1, H2 by auto.
    cbn [orb]. unfold probe.
    change (genericMessage (lit "generate structured text") m)
      with (70 :: tl (genericMessage (lit "generate structured text") m)).
    now rewrite failed_text_is_not_JSON.
  - reflexivity.
Qed.

(** X4: when the service rejects the call with an [Error] that is not
    already a configuration error and whose message has one of the two
    invalid-key phrases, or makes the JSON probe fire, every exported
    function rejects with the ConfigurationError and its fixed message;
    [generateColorPalette] too, whose second pass through [handleError]
    lets the first pass's ConfigurationError through. *)
Theorem backend_key_error_becomes_ConfigurationError
    (host : Host) (op : Operation) (w : World) (ai : GoogleGenAI)
    (e : JsError) :
  client_of w = Some ai ->
  rejection host (call_of ai op) = Some (ErrorObject e) ->
  startsWith (message e) CONFIG_PREFIX = false ->
  includes (message e) (lit "API key not valid") = true \/
  includes (message e) API_KEY_INVALID = true \/
  probe (message e) = true ->
  fst (invoke host op w) = Throw ConfigurationError.
Proof.
  intros Hc Hr Hprefix Hkey.
  assert (Hclass : forall context,
            handleError (ErrorObject e) context = Throw ConfigurationError).
  { intros context. rewrite (handleError_classified e context Hprefix).
    destruct Hkey as [-> | [-> | ->]]; rewrite ?orb_true_r; reflexivity. }
  destruct (is_palette op) eqn:Hp.
  - destruct op; try discriminate.
    destruct (palette_rejected host theme w ai _ Hc Hr) as (t1 & H1 & ->).
    rewrite Hclass in H1. injection H1 as <-.
    now rewrite handleError_ConfigurationError.
  - rewrite (invoke_rejected host op w ai _ Hp Hc Hr), Hclass. reflexivity.
Qed.

Lemma backend_key_error_becomes_ConfigurationError_witness :
  fst (invoke (rejecting_host (ErrorObject (new_Error plain_key)))
         (GenerateColorPalette (lit "sea")) configured)
  = Throw ConfigurationError.
Proof.
  refine (backend_key_error_becomes_ConfigurationError
            (rejecting_host (ErrorObject (new_Error plain_key)))
            (GenerateColorPalette (lit "sea")) configured
            {| apiKey := lit "secret" |} (new_Error plain_key) _ _ _ _).
  - vm_compute. reflexivity.
  - vm_compute. reflexivity.
  - vm_compute. reflexivity.
  - right. left. vm_compute. reflexivity.
Defined.

(** X5: when the service rejects the call with any other [Error] (no
    configuration prefix, neither phrase, the probe silent), the function
    rejects with the GenericFailure made of its own label and the original
    message, untouched; [generateColorPalette] wraps twice: its label, then
    the label of [generateStructuredText], then the original message. *)
Theorem backend_failure_is_wrapped_with_the_label
    (host : Host) (op : Operation) (w : World) (ai : GoogleGenAI)
    (e : JsError) :
  client_of w = Some ai ->
  rejection host (call_of ai op) = Some (ErrorObject e) ->
  startsWith (message e) CONFIG_PREFIX = false ->
  includes (message e) (lit "API key not valid") = false ->
  includes (message e) API_KEY_INVALID = false ->
  probe (message e) = false ->
  fst (invoke host op w) =
    Throw (if is_palette op
           then GenericFailure (lit "generate color palette")
                  (genericMessage (lit "generate structured text") (message e))
           else GenericFailure (context_of op) (message e)).
Proof.
  intros Hc Hr Hprefix HA HB HP.
  assert (Hclass : forall context,
            handleError (ErrorObject e) context
              = Throw (GenericFailure context (message e))).
  { intros context. rewrite (handleError_classified e context Hprefix).
    now rewrite HA, HB, HP. }
  destruct (is_palette op) eqn:Hp.
  - destruct op; try discriminate.
    destruct (palette_rejected host theme w ai _ Hc Hr) as (t1 & H1 & ->).
    rewrite Hclass in H1. injection H1 as <-.
    now rewrite (structured_failure_wrapped_again _ _ HA HB).
  - rewrite (invoke_rejected host op w ai _ Hp Hc Hr), Hclass. reflexivity.
Qed.

Lemma backend_failure_is_wrapped_with_the_label_witness :
  fst (invoke (rejecting_host (ErrorObject (new_Error (lit "quota exceeded"))))
         (GenerateColorPalette (lit "sea")) configured)
  = Throw (GenericFailure (lit "generate color palette")
             (lit "Failed to generate structured text. quota exceeded")).
Proof.
  refine (backend_failure_is_wrapped_with_the_label
            (rejecting_host (ErrorObject (new_Error (lit "quota exceeded"))))
            (GenerateColorPalette (lit "sea")) configured
            {| apiKey := lit "secret" |} (new_Error (lit "quota exceeded"))
            _ _ _ _ _ _); vm_compute; reflexivity.
Defined.

Lemma unknown_failure_wrapped (context : jsstring) :
  handleError (UnknownFailure (lit "generate structured text")) context
    = Throw (GenericFailure context
               (unknownMessage (lit "generate structured text"))).
Proof.
  unfold UnknownFailure. rewrite handleError_classified; reflexivity.
Qed.

(** X6: when the service rejects the call with a value that is not an
    [Error], the function rejects with the UnknownFailure carrying its
    label, and the value is dropped; [generateColorPalette] rejects with a
    GenericFailure that wraps the UnknownFailure message of
    [generateStructuredText]. *)
Theorem backend_non_error_becomes_UnknownFailure
    (host : Host) (op : Operation) (w : World) (ai : GoogleGenAI) (v : json) :
  client_of w = Some ai ->
  rejection host (call_of ai op) = Some (NonError v) ->
  fst (invoke host op w) =
    Throw (if is_palette op
           then GenericFailure (lit "generate color palette")
                  (unknownMessage (lit "generate structured text"))
           else UnknownFailure (context_of op)).
Proof.
  intros Hc Hr. destruct (is_palette op) eqn:Hp.
  - destruct op; try discriminate.
    destruct (palette_rejected host theme w ai _ Hc Hr) as (t1 & H1 & ->).
    cbn [handleError] in H1. injection H1 as <-.
    change (ErrorObject (new_Error (unknownMessage (lit "generate structured text"))))
      with (UnknownFailure (lit "generate structured text")).
    now rewrite unknown_failure_wrapped.
  - rewrite (invoke_rejected host op w ai _ Hp Hc Hr). reflexivity.
Qed.

Lemma backend_non_error_becomes_UnknownFailure_witness :
  fst (invoke (rejecting_host (NonError (JString (lit "timeout"))))
         (EditImage (lit "brighten") photo) configured)
  = Throw (UnknownFailure (lit "edit image")).
Proof.
  refine (backend_non_error_becomes_UnknownFailure
            (rejecting_host (NonError (JString (lit "timeout"))))
            (EditImage (lit "brighten") photo) configured
            {| apiKey := lit "secret" |} (JString (lit "timeout")) _ _);
    vm_compute; reflexivity.
Defined.

(** *** What a resolved call holds *)

Lemma invalid_format_classified :
  handleError
    (ErrorObject (new_Error (lit "Invalid response format from API.")))
    (lit "generate color palette")
  = Throw (GenericFailure (lit "generate color palette")
             (lit "Invalid response format from API.")).
Proof. vm_compute. reflexivity. Qed.

(** X7: when the response text, once trimmed, parses to a JSON value other
    than [null] whose [palette] is missing or is not an array,
    [generateColorPalette] rejects with the GenericFailure that wraps
    "Invalid response format from API." *)
Theorem generateColorPalette_rejects_without_palette_array
    (host : Host) (theme : jsstring) (w : World) (ai : GoogleGenAI)
    (response : GenerateContentResponse) (parsed : json) :
  client_of w = Some ai ->
  generateContent host ai
    (structuredRequest (palettePrompt theme) paletteSchema) = Return response ->
  JSON_parse (trim (response_text response)) = Some parsed ->
  parsed <> JNull ->
  (forall colors, get parsed (lit "palette") <> Some (JArray colors)) ->
  fst (generateColorPalette host theme w)
    = Throw (GenericFailure (lit "generate color palette")
               (lit "Invalid response format from API.")).
Proof.
  intros Hc Hr Hp Hnull Hpal.
  rewrite generateColorPalette_run. cbv zeta. cbn [fst].
  rewrite generateStructuredText_run, Hc. cbv zeta. cbn [fst].
  rewrite Hr, Hp.
  destruct parsed as [| | | | |members]; try congruence;
    try (cbn [get]; now rewrite invalid_format_classified).
  destruct (get (JObject members) (lit "palette")) as [[| | | |colors|]|] eqn:E;
    try (now rewrite invalid_format_classified).
  now destruct (Hpal colors).
Qed.

Lemma generateColorPalette_rejects_without_palette_array_witness :
  fst (generateColorPalette (text_host (jq " {'colors':[]} ")) (lit "sea")
         configured)
  = Throw (GenericFailure (lit "generate color palette")
             (lit "Invalid response format from API.")).
Proof.
  refine (generateColorPalette_rejects_without_palette_array
            (text_host (jq " {'colors':[]} ")) (lit "sea") configured
            {| apiKey := lit "secret" |}
            {| response_text := jq " {'colors':[]} "; response_parts := [] |}
            (JObject [(lit "colors", JArray [])]) _ _ _ _ _).
  - vm_compute. reflexivity.
  - vm_compute. reflexivity.
  - vm_compute. reflexivity.
  - discriminate.
  - intros colors. vm_compute. discriminate.
Defined.

(** X8: whenever [generateImage] resolves, the list it resolves with is not
    empty, has one entry per image the service generated, in order, and
    every entry starts with [data:image/jpeg;base64,]. *)
Theorem generateImage_resolves_with_jpeg_uris
    (host : Host) (prompt : jsstring) (n : option Z) (w : World)
    (result : option (list jsstring)) :
  fst (generateImage host prompt n w) = Return result ->
  exists ai response images uris,
    result = Some uris /\
    client_of w = Some ai /\
    generateImages host ai (imageRequest prompt n) = Return response /\
    generatedImages response = Some images /\
    uris <> [] /\
    List.length uris = List.length images /\
    Forall (fun uri => startsWith uri (lit "data:image/jpeg;base64,") = true)
           uris.
Proof.
  rewrite generateImage_run. destruct (client_of w) as [ai|]; cbn [fst];
    [|discriminate].
  cbv zeta. destruct (generateImages host ai _) as [response|t] eqn:Hr.
  2:{ intros H. now apply caught_not_Return in H. }
  destruct (generatedImages response) as [[|img images]|] eqn:Hi;
    try (intros H; now apply caught_not_Return in H).
  intros H.
  exists ai, response, (img :: images),
    (map (fun img => lit "data:image/jpeg;base64," ++ imageBytes img)
         (img :: images)).
  split; [injection H as <-; reflexivity|].
  split; [reflexivity|]. split; [exact Hr|]. split; [exact Hi|].
  split; [cbn [map]; discriminate|]. split; [apply length_map|].
  apply Forall_map, Forall_forall. intros x _.
  apply startsWith_app. eexists. reflexivity.
Qed.

Lemma generateImage_resolves_with_jpeg_uris_witness :
  exists ai response images uris,
    Some [lit "data:image/jpeg;base64,QQ=="] = Some uris /\
    client_of configured = Some ai /\
    generateImages (images_host (Some [ {| imageBytes := lit "QQ==" |} ])) ai
      (imageRequest (lit "a cat") None) = Return response /\
    generatedImages response = Some images /\
    uris <> [] /\
    List.length uris = List.length images /\
    Forall (fun uri => startsWith uri (lit "data:image/jpeg;base64,") = true)
           uris.
Proof.
  apply (generateImage_resolves_with_jpeg_uris
           (images_host (Some [ {| imageBytes := lit "QQ==" |} ]))
           (lit "a cat") None configured).
  vm_compute. reflexivity.
Defined.

(** X9: whenever [editImage] resolves, the image of the result is not null:
    it is the data URI, [data:<mimeType>;base64,<data>], of a part of the
    response that has inline data and no non-empty text; and the text of
    the result, when not null, is the non-empty text of a part of the
    response. *)
Theorem editImage_resolves_with_an_image
    (host : Host) (prompt : jsstring) (image : File) (w : World)
    (result : option EditResult) :
  fst (editImage host prompt image w) = Return result ->
  exists ai response r p d,
    result = Some r /\
    client_of w = Some ai /\
    generateContent host ai (editRequest prompt (generativePart image))
      = Return response /\
    In p (response_parts response) /\
    inlineData p = Some d /\ falsy (text p) = true /\
    edit_image r = Some (lit "data:" ++ mimeType d ++ lit ";base64," ++ data d) /\
    (edit_text r = None \/
     exists q t, In q (response_parts response) /\ text q = Some t /\
                 t <> [] /\ edit_text r = Some t).
Proof.
  intros H.
  destruct (client_of w) as [ai|] eqn:Hc.
  2:{ rewrite editImage_run, Hc in H. discriminate. }
  destruct (generateContent host ai (editRequest prompt (generativePart image)))
    as [response|t] eqn:Hr.
  2:{ rewrite editImage_run, Hc in H. cbv zeta in H. cbn [fst] in H.
      rewrite Hr in H. now apply caught_not_Return in H. }
  rewrite (editImage_unwrap host prompt image w ai response Hc Hr) in H.
  unfold last_image_only, last_nonempty_text in H.
  destruct (find is_image_only (rev (response_parts response))) as [p|] eqn:Ep;
    [|discriminate].
  apply find_some in Ep as [Hin Hp]. apply in_rev in Hin.
  unfold is_image_only, has_inline_data in Hp.
  apply andb_true_iff in Hp as [Hf Hd].
  destruct (inlineData p) as [d|] eqn:Ed; [|discriminate].
  injection H as <-.
  exists ai, response. eexists. exists p, d.
  split; [reflexivity|]. repeat split; auto.
  cbn [edit_text].
  destruct (find has_nonempty_text (rev (response_parts response)))
    as [q|] eqn:Eq; [|now left].
  right. apply find_some in Eq as [Hq Ht]. apply in_rev in Hq.
  unfold has_nonempty_text in Ht.
  destruct (text q) as [[|c t]|] eqn:Et; try discriminate.
  exists q, (c :: t). repeat split; auto. discriminate.
Qed.

Lemma editImage_resolves_with_an_image_witness :
  exists ai response r p d,
    Some {| edit_text := Some (lit "after");
            edit_image := Some (dataUri pictureB) |} = Some r /\
    client_of configured = Some ai /\
    generateContent (parts_host textImageTextImage) ai
      (editRequest (lit "brighten") (generativePart photo)) = Return response /\
    In p (response_parts response) /\
    inlineData p = Some d /\ falsy (text p) = true /\
    edit_image r = Some (lit "data:" ++ mimeType d ++ lit ";base64," ++ data d) /\
    (edit_text r = None \/
     exists q t, In q (response_parts response) /\ text q = Some t /\
                 t <> [] /\ edit_text r = Some t).
Proof.
  apply (editImage_resolves_with_an_image (parts_host textImageTextImage)
           (lit "brighten") photo configured).
  vm_compute. reflexivity.
Defined.

(** X10: once the service fulfils the call, [generateTextWithImage] always
    resolves, whatever the text and whatever [isJson]; with [isJson] absent
    or false it resolves with the response text itself, unparsed even when
    it is valid JSON. *)
Theorem generateTextWithImage_resolves_when_fulfilled
    (host : Host) (prompt : jsstring) (image : File) (isJson : option bool)
    (w : World) (ai : GoogleGenAI) (response : GenerateContentResponse) :
  client_of w = Some ai ->
  generateContent host ai
    (textWithImageRequest prompt (generativePart image)
       (match isJson with Some b => b | None => false end)) = Return response ->
  (exists v, fst (generateTextWithImage host prompt image isJson w)
             = Return (Some v)) /\
  (isJson = None \/ isJson = Some false ->
   fst (generateTextWithImage host prompt image isJson w)
     = Return (Some (JString (response_text response)))).
Proof.
  intros Hc Hr. rewrite generateTextWithImage_run, Hc. cbv zeta. cbn [fst].
  rewrite Hr. split.
  - destruct (match isJson with Some b => b | None => false end);
      [|eexists; reflexivity].
    destruct (JSON_parse (response_text response)); eexists; reflexivity.
  - intros [-> | ->]; reflexivity.
Qed.

Lemma generateTextWithImage_resolves_when_fulfilled_witness :
  fst (generateTextWithImage (text_host (jq "{'a':1}")) (lit "describe") photo
         None configured)
  = Return (Some (JString (jq "{'a':1}"))).
Proof.
  refine (proj2 (generateTextWithImage_resolves_when_fulfilled
                   (text_host (jq "{'a':1}")) (lit "describe") photo None
                   configured {| apiKey := lit "secret" |}
                   {| response_text := jq "{'a':1}"; response_parts := [] |}
                   _ _) _).
  - vm_compute. reflexivity.
  - vm_compute. reflexivity.
  - left. reflexivity.
Defined.

(** X11: what [handleError] raises for an [Error] without the configuration
    prefix, exactly: the ConfigurationError if and only if the message has
    one of the two phrases, or parses as JSON to a value whose
    [error.details] is an array in which some entry has [reason] equal to
    [API_KEY_INVALID] and no [null] entry comes before that entry; in every
    other case the GenericFailure of the label and the message. *)
Theorem handleError_classification
    (e : JsError) (context : jsstring) :
  startsWith (message e) CONFIG_PREFIX = false ->
  (handleError (ErrorObject e) context = Throw ConfigurationError <->
     includes (message e) (lit "API key not valid") = true \/
     includes (message e) API_KEY_INVALID = true \/
     exists parsed before d after,
       JSON_parse (message e) = Some parsed /\
       opt_get (opt_get (Some parsed) (lit "error")) (lit "details")
         = Some (JArray (before ++ d :: after)) /\
       ~ In JNull before /\
       get d (lit "reason") = Some (JString API_KEY_INVALID)) /\
  (handleError (ErrorObject e) context <> Throw ConfigurationError ->
   handleError (ErrorObject e) context
     = Throw (GenericFailure context (message e))).
Proof.
  intros Hprefix. rewrite (handleError_classified e context Hprefix).
  assert (Hprobe : probe (message e) = true <->
            exists parsed before d after,
              JSON_parse (message e) = Some parsed /\
              opt_get (opt_get (Some parsed) (lit "error")) (lit "details")
                = Some (JArray (before ++ d :: after)) /\
              ~ In JNull before /\
              get d (lit "reason") = Some (JString API_KEY_INVALID)).
  { unfold probe. split.
    - destruct (JSON_parse (message e)) as [parsed|]; [|discriminate].
      destruct (opt_get (opt_get (Some parsed) (lit "error")) (lit "details"))
        as [[| | | |ds|]|] eqn:E; try discriminate.
      destruct (some_reason ds) as [[|]|] eqn:Es; try discriminate.
      intros _. apply some_reason_true in Es
        as (before & d & after & -> & Hn & Hd).
      exists parsed, before, d, after. repeat split; auto.
      unfold reason_is_invalid_key in Hd.
      destruct (get d (lit "reason")) as [[| | |s| |]|]; try discriminate.
      apply str_eqb_eq in Hd. now subst.
    - intros (parsed & before & d & after & -> & -> & Hn & Hd).
      assert (Hs : some_reason (before ++ d :: after) = Some true).
      { apply some_reason_true. exists before, d, after. repeat split; auto.
        unfold reason_is_invalid_key. rewrite Hd. now apply str_eqb_eq. }
      now rewrite Hs. }
  destruct (includes (message e) (lit "API key not valid")) eqn:E1; cbn [orb].
  { split; [split; auto | intros H; now exfalso]. }
  destruct (includes (message e) API_KEY_INVALID) eqn:E2; cbn [orb].
  { split; [split; auto | intros H; now exfalso]. }
  destruct (probe (message e)) eqn:P.
  - split; [|intros H; now exfalso]. split; [|reflexivity].
    intros _. right. right. now apply Hprobe.
  - split; [|reflexivity]. split.
    + intros H. exfalso.
      apply (generic_is_not_configuration context (message e)). congruence.
    + intros [H | [H | H]]; try discriminate.
      apply Hprobe in H. discriminate.
Qed.

Lemma handleError_classification_witness :
  handleError (ErrorObject (new_Error escaped_key)) (lit "generate text")
    = Throw ConfigurationError.
Proof.
  refine (proj2 (proj1 (handleError_classification (new_Error escaped_key)
                          (lit "generate text") _)) _).
  - vm_compute. reflexivity.
  - right. right.
    exists (JObject [(lit "error",
              JObject [(lit "details",
                JArray [JObject [(lit "reason", JString API_KEY_INVALID)]])])]),
           [], (JObject [(lit "reason", JString API_KEY_INVALID)]), [].
    repeat split; try (vm_compute; reflexivity).
    intros [].
Defined.

End GatewayFacts.
Export GatewayFacts.
